(** * FileUtil: walking the local file tree and resolving configuration files

    A shallow embedding of the [FileUtil] class of the file-utility plugin:
    the path relativizer ([getRelativePath]), the candidate resolver
    ([openFiles], in its asynchronous two-strategy form and in its older
    synchronous form), the dual-root resolver ([openLocalConfigs]) and the two
    tree-walking generators ([walkDir], [walkFiles]) with their consumers.

    Node's [path] module, the [fs] module and the module loaders are the
    environment of the class.  They are taken as parameters ([NodePath],
    [World], [Dirent] trees), and one concrete POSIX instance of [path] is
    given so that every definition can be run on concrete inputs. *)

From Stdlib Require Import String Ascii List Bool Arith Lia.
Import ListNotations.

Local Open Scope string_scope.
Local Open Scope list_scope.

Set Implicit Arguments.

(** String concatenation, as in a template literal. *)
Infix "+++" := String.append (right associativity, at level 60).

(* ================================================================== *)
(** ** JavaScript strings *)

(** [s.startsWith(p)] *)
Definition startsWith (s p : string) : bool := String.prefix p s.

(** [a !== b] on strings *)
Definition strict_neq (a b : string) : bool := negb (String.eqb a b).

(** The line feed of the template literals. *)
Definition LF : string := String (ascii_of_nat 10) EmptyString.

(** [new Map(l.map(e => [e, 1])).has(x)] : membership in the key set. *)
Definition map_has (keys : list string) (x : string) : bool :=
  existsb (String.eqb x) keys.

(* ================================================================== *)
(** ** Node's [path] module, as the class uses it *)

Inductive Platform : Type := Posix | Win32.

Record NodePath : Type := mkNodePath {
  platform : Platform;
  relative : string -> string -> string;   (* path.relative(from, to) *)
  join     : string -> string -> string;   (* path.join(dir, name)    *)
  basename : string -> string;             (* path.basename(p)        *)
  resolve  : string -> string              (* path.resolve(p)         *)
}.

(** [path.sep] *)
Definition sep (path : NodePath) : string :=
  match platform path with
  | Posix => "/"
  | Win32 => "\"
  end.

(* ------------------------------------------------------------------ *)
(** *** A POSIX instance, for running the definitions

    [normalizeString], [normalize], [join], [resolve], [relative] and
    [basename] of Node's [path.posix], on segment lists.  [cwd] is the
    process working directory (an absolute path). *)

Module PosixPath.

(** Segments of [s] between slashes (empty segments included). *)
Fixpoint split_slash (s : string) : list string :=
  match s with
  | EmptyString => [EmptyString]
  | String c rest =>
      if Ascii.eqb c "/"%char then EmptyString :: split_slash rest
      else match split_slash rest with
           | [] => [String c EmptyString]
           | seg :: segs => String c seg :: segs
           end
  end.

(** [normalizeString]: [acc] is the reversed list of kept segments. *)
Fixpoint normalize_segs (allowAboveRoot : bool) (acc segs : list string)
  : list string :=
  match segs with
  | [] => rev acc
  | seg :: rest =>
      if String.eqb seg "" || String.eqb seg "." then
        normalize_segs allowAboveRoot acc rest
      else if String.eqb seg ".." then
        match acc with
        | last :: acc' =>
            if String.eqb last ".."
            then normalize_segs allowAboveRoot (".." :: acc) rest
            else normalize_segs allowAboveRoot acc' rest
        | [] =>
            if allowAboveRoot
            then normalize_segs allowAboveRoot [".."] rest
            else normalize_segs allowAboveRoot [] rest
        end
      else normalize_segs allowAboveRoot (seg :: acc) rest
  end.

Definition isAbsolute (p : string) : bool := startsWith p "/".

Fixpoint endsWithSlash (p : string) : bool :=
  match p with
  | EmptyString => false
  | String c EmptyString => Ascii.eqb c "/"%char
  | String _ rest => endsWithSlash rest
  end.

Definition normalize (p : string) : string :=
  if String.eqb p "" then "."
  else
    let body :=
      String.concat "/" (normalize_segs (negb (isAbsolute p)) [] (split_slash p)) in
    if String.eqb body "" then
      if isAbsolute p then "/" else if endsWithSlash p then "./" else "."
    else
      let body' := if endsWithSlash p then body +++ "/" else body in
      if isAbsolute p then "/" +++ body' else body'.

Definition join (a b : string) : string :=
  if String.eqb a "" then (if String.eqb b "" then "." else normalize b)
  else if String.eqb b "" then normalize a
  else normalize (a +++ "/" +++ b).

(** Segments of [path.resolve(p)], which is always absolute. *)
Definition resolve_segs (cwd p : string) : list string :=
  if isAbsolute p then normalize_segs false [] (split_slash p)
  else normalize_segs false [] (split_slash (cwd +++ "/" +++ p)).

Definition resolve (cwd p : string) : string :=
  "/" +++ String.concat "/" (resolve_segs cwd p).

Fixpoint drop_common (f t : list string) : list string * list string :=
  match f, t with
  | x :: f', y :: t' => if String.eqb x y then drop_common f' t' else (f, t)
  | _, _ => (f, t)
  end.

Definition relative (cwd from to : string) : string :=
  if String.eqb from to then ""
  else
    let '(f, t) := drop_common (resolve_segs cwd from) (resolve_segs cwd to) in
    String.concat "/" (map (fun _ => "..") f ++ t).

Definition basename (p : string) : string :=
  last (filter (fun seg => negb (String.eqb seg "")) (split_slash p)) "".

End PosixPath.

Definition posix (cwd : string) : NodePath :=
  {| platform := Posix;
     relative := PosixPath.relative cwd;
     join     := PosixPath.join;
     basename := PosixPath.basename;
     resolve  := PosixPath.resolve cwd |}.

(* ================================================================== *)
(** ** The path relativizer *)

Section Relativizer.

Variable path : NodePath.

(** [FileUtil.getRelativePath(basePath, filePath)] *)
Definition getRelativePath (basePath filePath : string) : string :=
  let returnPath := filePath in
  if startsWith filePath basePath then
    let returnPath := relative path basePath filePath in
    if startsWith returnPath "." then returnPath
    else "." +++ sep path +++ returnPath
  else returnPath.

End Relativizer.

(* ================================================================== *)
(** ** Loaded data, the module loaders and the observable effects *)

(** Values a configuration file evaluates to. *)
#[warnings="-register-all"] Inductive JSValue : Type :=
| VUndefined
| VNull
| VBool (b : bool)
| VString (s : string)
| VObject (fields : list (string * JSValue)).

(** What a step of the class itself throws. *)
Inductive JSError : Type :=
| TypeError (message : string)          (* new TypeError(message)             *)
| PropertyOfNullish (property : string) (* the engine's TypeError for reading
                                           a property of null or undefined    *)
| ReferenceError (identifier : string)  (* the engine's "... is not defined"  *)
| External (reason : string).           (* thrown or rejected by a collaborator *)

(** A method of the class returns [a] or raises [e]. *)
Inductive Result (A : Type) : Type :=
| Ok (a : A)
| Throw (e : JSError).

Arguments Ok {A} a.
Arguments Throw {A} e.

(** A value caught by a handler, [err], as far as the class looks at it: the
    handlers of [openFiles] evaluate the template literal [${err.message}].
    [Readable message] is a thrown value on which that gives the string
    [message] (an [Error], or any value that is neither [null] nor [undefined],
    with ["undefined"] for a value without that property).  [Unreadable raised]
    is a thrown value on which that evaluation itself throws [raised]: [null]
    and [undefined], on which reading [message] is a TypeError, or a value
    whose [message] cannot be read or converted to a string. *)
Inductive Exception : Type :=
| Readable (message : string)
| Unreadable (raised : JSError).

(** A thrown [null] or [undefined]. *)
Definition nullish : Exception := Unreadable (PropertyOfNullish "message").

(** A call that returns or throws. *)
Inductive Outcome (A : Type) : Type :=
| Returned (a : A)
| Thrown (err : Exception).

Arguments Returned {A} a.
Arguments Thrown {A} err.

(** The namespace object of a dynamically imported module: [module.default]
    is [undefined] when the module has no default export. *)
Record ModuleNamespace : Type := mkModule { default : JSValue }.

(** The filesystem and loaders the resolver consults. *)
Record World : Type := mkWorld {
  existsSync : string -> bool;                   (* fs.existsSync(p) *)
  require    : string -> Outcome JSValue;        (* require(p)       *)
  import     : string -> Outcome ModuleNamespace (* await import(p)  *)
}.

(** [global.$$bundler_baseCWD] (the working root) and
    [global.$$bundler_origCWD] (the original root). *)
Record Global : Type := mkGlobal {
  bundler_baseCWD : string;
  bundler_origCWD : string
}.

(** What a run does to its environment, in program order. *)
Inductive Event : Type :=
| FsExists (p : string)        (* fs.existsSync(p) was called        *)
| Required (p : string)        (* require(p) was attempted           *)
| Imported (p : string)        (* import(p) was attempted            *)
| LogWarn (message : string).  (* eventbus.trigger('log:warn', ...)  *)

(** A computation: its value and the events it performed. *)
Definition Eff (A : Type) : Type := (A * list Event)%type.

Definition ret {A} (a : A) : Eff A := (a, []).

Definition bind {A B} (m : Eff A) (k : A -> Eff B) : Eff B :=
  let '(a, t1) := m in
  let '(b, t2) := k a in
  (b, t1 ++ t2).

Definition value {A} (m : Eff A) : A := fst m.
Definition events {A} (m : Eff A) : list Event := snd m.

Notation "x <- m ;; k" := (bind m (fun x => k))
  (at level 61, m at next level, right associativity).
Notation "m ;;; k" := (bind m (fun _ => k))
  (at level 61, right associativity).

Definition is_warning (e : Event) : bool :=
  match e with LogWarn _ => true | _ => false end.

Section Primitives.

Variable world : World.

Definition fs_existsSync (p : string) : Eff bool :=
  (existsSync world p, [FsExists p]).

Definition try_require (p : string) : Eff (Outcome JSValue) :=
  (require world p, [Required p]).

Definition try_import (p : string) : Eff (Outcome ModuleNamespace) :=
  (import world p, [Imported p]).

Definition log_warn (message : string) : Eff unit :=
  (tt, [LogWarn message]).

End Primitives.

(** The object literal [fileInfo] of [openFiles]. *)
Record FileInfo : Type := mkFileInfo {
  fi_absFilePath  : string;
  fi_baseFileName : string;
  fi_extension    : string;
  fi_fileName     : string;
  fi_relativePath : string
}.

(** The object [openFiles] returns on success. *)
Record LoadResult : Type := mkLoadResult {
  absFilePath  : string;
  baseFileName : string;
  extension    : string;
  fileName     : string;
  relativePath : string;
  data         : JSValue
}.

(** [Object.assign(fileInfo, { data })] *)
Definition assign_data (fileInfo : FileInfo) (d : JSValue) : LoadResult :=
  {| absFilePath  := fi_absFilePath fileInfo;
     baseFileName := fi_baseFileName fileInfo;
     extension    := fi_extension fileInfo;
     fileName     := fi_fileName fileInfo;
     relativePath := fi_relativePath fileInfo;
     data         := d |}.

(* ================================================================== *)
(** ** The candidate resolver and the dual-root resolver *)

(** The asynchronous class: [require] first, dynamic [import] second. *)
Module Async.
Section Resolver.

Variable path : NodePath.
Variable global : Global.
Variable world : World.

(** The text of the warning of [openFiles], for the messages of the two
    caught values. *)
Definition warning (errorMessage message messageESM absFilePath : string) : string :=
  errorMessage +++ LF +++ "require error: " +++ message +++ LF
  +++ "dynamic import error: " +++ messageESM +++ LF
  +++ "file path: " +++ getRelativePath path (bundler_origCWD global) absFilePath.

(** [FileUtil.openFiles(basePath, baseFileName, extensions, errorMessage)];
    [Ok None] is the returned [null].  Leaving the loop by [break] and falling
    off its end both reach the final [return null].  An exception thrown
    inside the handlers, where [err.message] and [errESM.message] are read, is
    caught by nothing: the call raises it. *)
Fixpoint openFiles (basePath baseFileName : string) (extensions : list string)
         (errorMessage : string) : Eff (Result (option LoadResult)) :=
  match extensions with
  | [] => ret (Ok None)
  | extension :: rest =>
      let fileName := baseFileName +++ extension in
      let absFilePath := basePath +++ sep path +++ fileName in
      let relativePath :=
        getRelativePath path (bundler_baseCWD global) absFilePath in
      let fileInfo :=
        {| fi_absFilePath := absFilePath;
           fi_baseFileName := baseFileName;
           fi_extension := extension;
           fi_fileName := fileName;
           fi_relativePath := relativePath |} in
      found <- fs_existsSync world absFilePath ;;
      if found then
        r <- try_require world absFilePath ;;
        match r with
        | Returned d => ret (Ok (Some (assign_data fileInfo d)))
        | Thrown err =>
            m <- try_import world absFilePath ;;
            match m with
            | Returned module =>
                ret (Ok (Some (assign_data fileInfo (default module))))
            | Thrown errESM =>
                (* the argument of [trigger] is evaluated first: [err.message],
                   then [errESM.message] *)
                match err, errESM with
                | Readable message, Readable messageESM =>
                    log_warn (warning errorMessage message messageESM absFilePath) ;;;
                    ret (Ok None)
                | Unreadable raised, _ => ret (Throw raised)
                | Readable _, Unreadable raised => ret (Throw raised)
                end
            end
        end
      else openFiles basePath baseFileName rest errorMessage
  end.

(** [FileUtil.openLocalConfigs(baseFileName, extensions, errorMessage)]; what
    [openFiles] raises on the working root is raised by the call. *)
Definition openLocalConfigs (baseFileName : string) (extensions : list string)
           (errorMessage : string) : Eff (Result (option LoadResult)) :=
  if strict_neq (bundler_baseCWD global) (bundler_origCWD global) then
    d <- openFiles (bundler_baseCWD global) baseFileName extensions errorMessage ;;
    match d with
    | Throw raised => ret (Throw raised)
    | Ok (Some r) => ret (Ok (Some r))
    | Ok None =>
        openFiles (bundler_origCWD global) baseFileName extensions errorMessage
    end
  else openFiles (bundler_origCWD global) baseFileName extensions errorMessage.

End Resolver.
End Async.

(** The synchronous class: [require] only. *)
Module Sync.
Section Resolver.

Variable path : NodePath.
Variable global : Global.
Variable world : World.

Definition warning (errorMessage message absFilePath : string) : string :=
  errorMessage +++ message +++ ":" +++ LF
  +++ getRelativePath path (bundler_origCWD global) absFilePath.

(** [FileUtil.openFiles(basePath, baseFileName, extensions, errorMessage)];
    the handler reads [err.message] before anything is logged, and what that
    read throws is raised by the call. *)
Fixpoint openFiles (basePath baseFileName : string) (extensions : list string)
         (errorMessage : string) : Eff (Result (option LoadResult)) :=
  match extensions with
  | [] => ret (Ok None)
  | extension :: rest =>
      let fileName := baseFileName +++ extension in
      let absFilePath := basePath +++ sep path +++ fileName in
      found <- fs_existsSync world absFilePath ;;
      if found then
        r <- try_require world absFilePath ;;
        match r with
        | Returned d =>
            ret (Ok (Some
              {| absFilePath := absFilePath;
                 baseFileName := baseFileName;
                 data := d;
                 extension := extension;
                 fileName := fileName;
                 relativePath :=
                   getRelativePath path (bundler_origCWD global) absFilePath |}))
        | Thrown (Readable message) =>
            log_warn (warning errorMessage message absFilePath) ;;;
            ret (Ok None)
        | Thrown (Unreadable raised) => ret (Throw raised)
        end
      else openFiles basePath baseFileName rest errorMessage
  end.

(** [FileUtil.openLocalConfigs(baseFileName, extensions, errorMessage)]; what
    [openFiles] raises on the working root is raised by the call. *)
Definition openLocalConfigs (baseFileName : string) (extensions : list string)
           (errorMessage : string) : Eff (Result (option LoadResult)) :=
  if strict_neq (bundler_baseCWD global) (bundler_origCWD global) then
    d <- openFiles (bundler_baseCWD global) baseFileName extensions errorMessage ;;
    match d with
    | Throw raised => ret (Throw raised)
    | Ok (Some r) => ret (Ok (Some r))
    | Ok None =>
        openFiles (bundler_origCWD global) baseFileName extensions errorMessage
    end
  else openFiles (bundler_origCWD global) baseFileName extensions errorMessage.

End Resolver.
End Sync.

(* ================================================================== *)
(** ** Directory trees and asynchronous generators *)

(** A directory entry ([fs.Dirent]) together with what opening it would give.
    [DDir] is a directory that [fs.promises.opendir] opens, with its entries in
    read order; [DDenied] is a directory on which [opendir] rejects with [err];
    [DOther] is an entry that is neither a directory nor a regular file
    (a symbolic link, a socket, ...). *)
#[warnings="-register-all"] Inductive Dirent : Type :=
| DFile (name : string)
| DOther (name : string)
| DDir (name : string) (listing : list Dirent)
| DDenied (name : string) (err : string).

(** [d.name] *)
Definition name (d : Dirent) : string :=
  match d with
  | DFile n | DOther n | DDir n _ | DDenied n _ => n
  end.

(** [d.isDirectory()] *)
Definition isDirectory (d : Dirent) : bool :=
  match d with
  | DDir _ _ | DDenied _ _ => true
  | DFile _ | DOther _ => false
  end.

(** [d.isFile()] *)
Definition isFile (d : Dirent) : bool :=
  match d with
  | DFile _ => true
  | _ => false
  end.

(** The result of [await fs.promises.opendir(dir)]. *)
Inductive DirHandle : Type :=
| Opened (listing : list Dirent)
| Rejected (err : string).

(** How a generator ends: it is exhausted, or it throws. *)
Inductive Completion : Type :=
| Done
| Failed (err : string).

(** A drained generator: the paths it yielded, in order, and how it ended. *)
Record Gen : Type := mkGen {
  yields : list string;
  completion : Completion
}.

Definition gen_done : Gen := mkGen [] Done.
Definition gen_throw (err : string) : Gen := mkGen [] (Failed err).
Definition gen_yield (p : string) : Gen := mkGen [p] Done.

(** [g1] then [g2]; a throw of [g1] ends the run. *)
Definition gen_seq (g1 g2 : Gen) : Gen :=
  match completion g1 with
  | Done => mkGen (yields g1 ++ yields g2) (completion g2)
  | Failed _ => g1
  end.

Section ForAwait.

Variable A : Type.
Variable body : A -> Gen.

(** [for await (const d of l) { body }] inside a generator. *)
Fixpoint for_await (l : list A) : Gen :=
  match l with
  | [] => gen_done
  | d :: rest => gen_seq (body d) (for_await rest)
  end.

End ForAwait.

(* ================================================================== *)
(** ** The tree walker *)

Section Walker.

Variable path : NodePath.

(** One turn of the loop of [walkDir(dir, skipDir)] on the entry [d].  The
    recursive call [walkDir(entry)] passes no [skipDir], which defaults to
    the empty array. *)
Fixpoint walkDir_step (dir : string) (skipDir : list string) (d : Dirent)
  {struct d} : Gen :=
  if isDirectory d && (map_has skipDir (name d) || startsWith (name d) ".")
  then gen_done
  else
    let entry := join path dir (name d) in
    match d with
    | DDir _ listing =>
        gen_seq (gen_yield entry) (for_await (walkDir_step entry []) listing)
    | DDenied _ err =>
        gen_seq (gen_yield entry) (gen_throw err)
    | DFile _ | DOther _ => gen_done
    end.

(** [FileUtil.walkDir(dir, skipDir)], where [h] is what opening [dir] gives. *)
Definition walkDir (dir : string) (skipDir : list string) (h : DirHandle) : Gen :=
  match h with
  | Rejected err => gen_throw err
  | Opened listing => for_await (walkDir_step dir skipDir) listing
  end.

(** One turn of the loop of [walkFiles(dir, skipDir)] on the entry [d]. *)
Fixpoint walkFiles_step (dir : string) (skipDir : list string) (d : Dirent)
  {struct d} : Gen :=
  if isDirectory d && (map_has skipDir (name d) || startsWith (name d) ".")
  then gen_done
  else
    let entry := join path dir (name d) in
    match d with
    | DDir _ listing => for_await (walkFiles_step entry []) listing
    | DDenied _ err => gen_throw err
    | DFile _ => gen_yield entry
    | DOther _ => gen_done
    end.

(** [FileUtil.walkFiles(dir, skipDir)], where [h] is what opening [dir] gives. *)
Definition walkFiles (dir : string) (skipDir : list string) (h : DirHandle) : Gen :=
  match h with
  | Rejected err => gen_throw err
  | Opened listing => for_await (walkFiles_step dir skipDir) listing
  end.

(** What opening the directory entry [d] gives. *)
Definition opendir (d : Dirent) : DirHandle :=
  match d with
  | DDir _ listing => Opened listing
  | DDenied _ err => Rejected err
  | DFile _ | DOther _ => Rejected "ENOTDIR"
  end.

Definition s_BABEL_CONFIG : list string :=
  [".babelrc"; ".babelrc.cjs"; ".babelrc.js"; ".babelrc.mjs"; ".babelrc.json";
   "babel.config.cjs"; "babel.config.js"; "babel.config.json";
   "babel.config.mjs"].

Definition s_TSC_CONFIG : list string := ["tsconfig.json"; "jsconfig.json"].

(** The loop shared by [hasBabelConfig] and [hasTscConfig]: [true] at the
    first yielded path whose base name is in [table]; the generator's throw
    is reached only when no earlier path matched. *)
Definition has_config (table : list string) (g : Gen) : Outcome bool :=
  if existsb (fun p => map_has table (basename path p)) (yields g)
  then Returned true
  else match completion g with
       | Done => Returned false
       | Failed err => Thrown (Readable err)
       end.

(** [FileUtil.hasBabelConfig(dir, skipDir)] *)
Definition hasBabelConfig (dir : string) (skipDir : list string) (h : DirHandle)
  : Outcome bool :=
  has_config s_BABEL_CONFIG (walkFiles dir skipDir h).

(** [FileUtil.hasTscConfig(dir, skipDir)] *)
Definition hasTscConfig (dir : string) (skipDir : list string) (h : DirHandle)
  : Outcome bool :=
  has_config s_TSC_CONFIG (walkFiles dir skipDir h).

End Walker.

(* ================================================================== *)
(** ** Vocabulary of the specification *)

(** The absolute path [openFiles] builds for one extension. *)
Definition candidate (path : NodePath) (basePath baseFileName extension : string)
  : string :=
  basePath +++ sep path +++ baseFileName +++ extension.

(** The existence checks of the candidates of [extensions], in order. *)
Definition probes (path : NodePath) (basePath baseFileName : string)
           (extensions : list string) : list Event :=
  map (fun e => FsExists (candidate path basePath baseFileName e)) extensions.

(** No candidate of [extensions] exists. *)
Definition all_missing (path : NodePath) (world : World)
           (basePath baseFileName : string) (extensions : list string) : Prop :=
  Forall (fun e => existsSync world (candidate path basePath baseFileName e) = false)
         extensions.

(** The object the asynchronous [openFiles] returns for [extension] when
    loading gives [d]. *)
Definition async_result (path : NodePath) (global : Global)
           (basePath baseFileName extension : string) (d : JSValue) : LoadResult :=
  {| absFilePath := candidate path basePath baseFileName extension;
     baseFileName := baseFileName;
     extension := extension;
     fileName := baseFileName +++ extension;
     relativePath :=
       getRelativePath path (bundler_baseCWD global)
                       (candidate path basePath baseFileName extension);
     data := d |}.

(** The object the synchronous [openFiles] returns for [extension] when
    [require] gives [d]. *)
Definition sync_result (path : NodePath) (global : Global)
           (basePath baseFileName extension : string) (d : JSValue) : LoadResult :=
  {| absFilePath := candidate path basePath baseFileName extension;
     baseFileName := baseFileName;
     extension := extension;
     fileName := baseFileName +++ extension;
     relativePath :=
       getRelativePath path (bundler_origCWD global)
                       (candidate path basePath baseFileName extension);
     data := d |}.

(** A world holding the single file [file], which [require] loads as [d]. *)
Definition single_file_world (file : string) (d : JSValue) : World :=
  {| existsSync := fun p => String.eqb p file;
     require := fun p =>
       if String.eqb p file then Returned d
       else Thrown (Readable "Cannot find module");
     import := fun p =>
       if String.eqb p file then Returned (mkModule d)
       else Thrown (Readable "Cannot find module") |}.

(** A world holding the single file [file], which neither loader can load. *)
Definition broken_file_world (file err errESM : string) : World :=
  {| existsSync := fun p => String.eqb p file;
     require := fun _ => Thrown (Readable err);
     import := fun _ => Thrown (Readable errESM) |}.

(** A world holding the single ES module [file] with default export [d]:
    [require] throws on it, dynamic [import] loads it. *)
Definition esm_file_world (file err : string) (d : JSValue) : World :=
  {| existsSync := fun p => String.eqb p file;
     require := fun _ => Thrown (Readable err);
     import := fun p =>
       if String.eqb p file then Returned (mkModule d)
       else Thrown (Readable "Cannot find module") |}.

(** A world holding the single file [file], on which both loaders throw
    [null]. *)
Definition nullish_file_world (file : string) : World :=
  {| existsSync := fun p => String.eqb p file;
     require := fun _ => Thrown nullish;
     import := fun _ => Thrown nullish |}.

(** The object a call returned, if it returned one. *)
Definition returned {A} (r : Result (option A)) : option A :=
  match r with
  | Ok found => found
  | Throw _ => None
  end.

(** What the handler of the asynchronous [openFiles] raises while it builds
    the warning from the two caught values, if anything: [err.message] is read
    before [errESM.message]. *)
Definition first_unreadable (err errESM : Exception) : option JSError :=
  match err, errESM with
  | Unreadable raised, _ => Some raised
  | Readable _, Unreadable raised => Some raised
  | Readable _, Readable _ => None
  end.

(** The result begins with a current-directory marker: it is ["."] or begins
    with ["."] followed by the platform separator. *)
Definition current_dir_marked (path : NodePath) (s : string) : bool :=
  String.eqb s "." || startsWith s ("." +++ sep path).

(** A trail is the chain of entries leading from a directory listing down to
    one entry of the tree: a child of the listing, then a child of that
    child, and so on. *)
Inductive Trail : list Dirent -> list Dirent -> Prop :=
| Trail_last (listing : list Dirent) (d : Dirent) :
    In d listing -> Trail listing [d]
| Trail_step (listing : list Dirent) (n : string) (sub t : list Dirent) :
    In (DDir n sub) listing -> Trail sub t -> Trail listing (DDir n sub :: t).

(** The path the walkers build for the entry at the end of a trail. *)
Definition trail_path (path : NodePath) (dir : string) (t : list Dirent) : string :=
  fold_left (fun acc d => join path acc (name d)) t dir.

(** A directory whose name does not start with a dot. *)
Definition visible_dir (d : Dirent) : Prop :=
  isDirectory d = true /\ startsWith (name d) "." = false.

(** The trail of a directory reached through visible directories only, itself
    visible. *)
Definition dir_trail (listing t : list Dirent) : Prop :=
  Trail listing t /\ Forall visible_dir t.

(** The trail of a regular file reached through visible directories only. *)
Definition file_trail (listing t : list Dirent) : Prop :=
  Trail listing t /\
  exists ds f, t = ds ++ [f] /\ Forall visible_dir ds /\ isFile f = true.

(** The trail does not start at a directory named in [skipDir]. *)
Definition top_kept (skipDir : list string) (t : list Dirent) : Prop :=
  match t with
  | d :: _ => isDirectory d = true -> map_has skipDir (name d) = false
  | [] => True
  end.

(** In a sequence of trails, every proper ancestor of a trail occurs strictly
    before it. *)
Definition ancestors_first (ts : list (list Dirent)) : Prop :=
  forall ts1 t ts2, ts = ts1 ++ t :: ts2 ->
  forall a b, t = a ++ b -> a <> [] -> b <> [] -> In a ts1.

(** The listing with the directories named in [skipDir] removed. *)
Definition without_skipped (skipDir : list string) (listing : list Dirent)
  : list Dirent :=
  filter (fun d => negb (isDirectory d && map_has skipDir (name d))) listing.

(** What a directory handle lists (nothing when opening was rejected). *)
Definition entries (h : DirHandle) : list Dirent :=
  match h with
  | Opened listing => listing
  | Rejected _ => []
  end.

(** No directory of the tree rejects being opened. *)
Fixpoint readable (d : Dirent) : bool :=
  match d with
  | DDir _ listing => forallb readable listing
  | DDenied _ _ => false
  | DFile _ | DOther _ => true
  end.

(* ================================================================== *)
(** ** The classifier, the listers and the ESM loader *)

Definition s_EXT_JS : list string := [".js"; ".jsx"; ".es6"; ".es"; ".mjs"].
Definition s_EXT_TS : list string := [".ts"; ".tsx"].

(** [FileUtil.isJS(extension)] *)
Definition isJS (extension : string) : bool := map_has s_EXT_JS extension.

(** [FileUtil.isTS(extension)] *)
Definition isTS (extension : string) : bool := map_has s_EXT_TS extension.

(** The outcome of a lister.  [array] is the content of the caller's
    [results] array once the promise has settled: the array is filled in
    place, so what was pushed before a failure stays in it.  [settled] is the
    promise: resolved with that same array, or rejected with the walker's
    error. *)
Record Listed : Type := mkListed {
  array : list string;
  settled : Outcome (list string)
}.

Section Lister.

Variable path : NodePath.

(** [for await (const p of g) { results.push(path.resolve(p)); }] *)
Definition push_resolved (results : list string) (ps : list string) : list string :=
  fold_left (fun acc p => acc ++ [resolve path p]) ps results.

(** The body shared by [getDirList] and [getFileList]. *)
Definition drain (results : list string) (g : Gen) : Listed :=
  let filled := push_resolved results (yields g) in
  {| array := filled;
     settled := match completion g with
                | Done => Returned filled
                | Failed err => Thrown (Readable err)
                end |}.

(** [FileUtil.getDirList(dir, skipDir, results)] *)
Definition getDirList (dir : string) (skipDir results : list string)
           (h : DirHandle) : Listed :=
  drain results (walkDir path dir skipDir h).

(** [FileUtil.getFileList(dir, skipDir, results)] *)
Definition getFileList (dir : string) (skipDir results : list string)
           (h : DirHandle) : Listed :=
  drain results (walkFiles path dir skipDir h).

End Lister.

(** [esmLoader(filePath)] of [esmLoader.js]: the default export of the
    dynamically imported module, or the import's error. *)
Definition esmLoader (world : World) (filePath : string) : Eff (Outcome JSValue) :=
  m <- try_import world filePath ;;
  match m with
  | Returned module => ret (Returned (default module))
  | Thrown err => ret (Thrown err)
  end.

(** Every directory of the tree that a walk would open can be opened: hidden
    directories are not opened, so what they contain does not count. *)
Fixpoint openable (d : Dirent) : bool :=
  match d with
  | DDir n listing => startsWith n "." || forallb openable listing
  | DDenied n _ => startsWith n "."
  | DFile _ | DOther _ => true
  end.

(** The same for a walked listing, where the directories named in [skipDir]
    are not opened either. *)
Definition walk_openable (skipDir : list string) (listing : list Dirent) : bool :=
  forallb (fun d => (isDirectory d && map_has skipDir (name d)) || openable d)
          listing.

(** The path an event is about, if any. *)
Definition event_path (e : Event) : option string :=
  match e with
  | FsExists p | Required p | Imported p => Some p
  | LogWarn _ => None
  end.

(* ================================================================== *)
(** ** The cosmiconfig search: [openLocalCosmic] *)

From Stdlib Require Import DecimalString.

(** JavaScript values, as far as [openLocalCosmic] tells them apart: by
    [typeof], by [Array.isArray], by comparison with [undefined] and by the
    properties it reads.  Objects are plain data objects used as maps from
    property names to values: the list holds their own properties and its
    order carries no meaning. *)
#[warnings="-register-all"] Inductive JS : Type :=
| JUndefined
| JNull
| JBool (b : bool)
| JNumber (n : nat)
| JString (s : string)
| JArray (items : list JS)
| JObject (props : list (string * JS))
| JFunction (fname : string).

(** [typeof v] *)
Definition typeof (v : JS) : string :=
  match v with
  | JUndefined => "undefined"
  | JNull | JArray _ | JObject _ => "object"
  | JBool _ => "boolean"
  | JNumber _ => "number"
  | JString _ => "string"
  | JFunction _ => "function"
  end.

(** [Array.isArray(v)] *)
Definition isArray (v : JS) : bool :=
  match v with JArray _ => true | _ => false end.

(** [v !== void 0] *)
Definition defined (v : JS) : bool :=
  match v with JUndefined => false | _ => true end.

(** The own property [k] of a plain object, [undefined] when absent. *)
Fixpoint lookup (k : string) (props : list (string * JS)) : JS :=
  match props with
  | [] => JUndefined
  | (k', v) :: rest => if String.eqb k k' then v else lookup k rest
  end.

(** [v.k] for the property names [openLocalCosmic] reads ([moduleName],
    [searchPlaces], [loaders]), which only plain objects can have: reading
    them from [null] or [undefined] throws, from any other value gives
    [undefined]. *)
Definition get (v : JS) (k : string) : Result JS :=
  match v with
  | JUndefined | JNull => Throw (PropertyOfNullish k)
  | JObject props => Ok (lookup k props)
  | _ => Ok JUndefined
  end.

(** [obj[k] = v]: an existing property keeps its place. *)
Fixpoint set_prop (k : string) (v : JS) (props : list (string * JS))
  : list (string * JS) :=
  match props with
  | [] => [(k, v)]
  | (k', v') :: rest =>
      if String.eqb k k' then (k, v) :: rest else (k', v') :: set_prop k v rest
  end.

(** The own enumerable properties of a source of [Object.assign] whose
    [typeof] is ["object"]: none for [null], the indices for an array. *)
Definition own_props (source : JS) : list (string * JS) :=
  match source with
  | JObject props => props
  | JArray items =>
      combine (map (fun i => NilZero.string_of_uint (Nat.to_uint i))
                   (seq 0 (length items)))
              items
  | _ => []
  end.

(** [Object.assign(target, source)] on the properties of [target]. *)
Definition object_assign (target : list (string * JS)) (source : JS)
  : list (string * JS) :=
  fold_left (fun acc kv => set_prop (fst kv) (snd kv) acc) (own_props source) target.

(** [items.flat()] *)
Definition flat (items : list JS) : list JS :=
  flat_map (fun v => match v with JArray inner => inner | _ => [v] end) items.

(** [s_DEFAULT_COSMIC_SEARCHPLACES(moduleName)] *)
Definition s_DEFAULT_COSMIC_SEARCHPLACES (moduleName : string) : list string :=
  ["package.json";
   "." +++ moduleName +++ "rc";
   "." +++ moduleName +++ "rc.json";
   "." +++ moduleName +++ "rc.yaml";
   "." +++ moduleName +++ "rc.yml";
   "." +++ moduleName +++ "rc.js";
   "." +++ moduleName +++ "rc.mjs";
   "." +++ moduleName +++ "rc.cjs";
   moduleName +++ ".config.js";
   moduleName +++ ".config.mjs";
   moduleName +++ ".config.cjs"].

(** What [cosmiconfig(moduleName, options)] returns: [search] is
    [explorer.search(dir)]. *)
Record Explorer : Type := mkExplorer { search : string -> Result JS }.

(** The collaborators of [openLocalCosmic]. *)
Record Collaborators : Type := mkCollaborators {
  (* await eventbus.triggerAsync('...:cosmic:support:get', moduleName) *)
  support_get : string -> Result JS;
  (* JSON.stringify(v) *)
  JSON_stringify : JS -> string;
  (* cosmiconfig(moduleName, options) *)
  cosmiconfig : string -> JS -> Result Explorer
}.

(** What a run of [openLocalCosmic] does, in program order. *)
Inductive CosmicEvent : Type :=
| SupportRequested (moduleName : string)
| StderrWrite (text : string)
| CosmiconfigCreated (moduleName : string) (options : JS)
| SearchStarted (dir : string).

(** A run: how it ends and what it did; a throw ends it. *)
Definition Run (A : Type) : Type := (Result A * list CosmicEvent)%type.

Definition run_ret {A} (a : A) : Run A := (Ok a, []).
Definition run_throw {A} (e : JSError) : Run A := (Throw e, []).
Definition lift {A} (r : Result A) : Run A := (r, []).
Definition emit (e : CosmicEvent) : Run unit := (Ok tt, [e]).

Definition run_bind {A B} (m : Run A) (k : A -> Run B) : Run B :=
  match fst m with
  | Ok a => (fst (k a), snd m ++ snd (k a))
  | Throw e => (Throw e, snd m)
  end.

Notation "x <~ m ;; k" := (run_bind m (fun x => k))
  (at level 61, m at next level, right associativity).
Notation "m ~;; k" := (run_bind m (fun _ => k))
  (at level 61, right associativity).

(** The initial [loaders] object. *)
Definition esm_loaders : list (string * JS) :=
  [(".js", JFunction "esmLoader"); (".mjs", JFunction "esmLoader")].

(** The array [mergeCosmic] built from what the support request returned. *)
Definition merge_list (remoteCosmic : JS) : list JS :=
  if defined remoteCosmic then
    match remoteCosmic with
    | JArray items => filter defined (flat items)
    | _ => [remoteCosmic]
    end
  else [].

(** The loop [for (const cosmic of mergeCosmic)], on [searchPlacesMerge] and
    [loaders]. *)
Fixpoint merge_cosmic (mergeCosmic : list JS) (searchPlacesMerge : list JS)
         (loaders : list (string * JS)) : Result (list JS * list (string * JS)) :=
  match mergeCosmic with
  | [] => Ok (searchPlacesMerge, loaders)
  | cosmic :: rest =>
      match get cosmic "searchPlaces" with
      | Throw e => Throw e
      | Ok places =>
          let searchPlacesMerge :=
            match places with
            | JArray items => searchPlacesMerge ++ items
            | _ => searchPlacesMerge
            end in
          match get cosmic "loaders" with
          | Throw e => Throw e
          | Ok sourceLoaders =>
              let loaders :=
                if String.eqb (typeof sourceLoaders) "object"
                then object_assign loaders sourceLoaders
                else loaders in
              merge_cosmic rest searchPlacesMerge loaders
          end
      end
  end.

Section Cosmic.

Variable global : Global.
Variable env : Collaborators.

(** The object [cosmicOptions]. *)
Definition cosmic_options (loaders : list (string * JS)) (searchPlaces : list JS)
  : JS :=
  JObject [("stopDir", JString (bundler_origCWD global));
           ("loaders", JObject loaders);
           ("searchPlaces", JArray searchPlaces)].

(** [FileUtil.openLocalCosmic(options)].  The identifier [searchPlaces] of
    the conditional expression is bound nowhere in the file, so evaluating it
    throws a [ReferenceError]. *)
Definition openLocalCosmic (options : JS) : Run JS :=
  if negb (String.eqb (typeof options) "object")
  then run_throw (TypeError "'options' is not an 'object'")
  else
    name <~ lift (get options "moduleName") ;;
    match name with
    | JString moduleName =>
        emit (SupportRequested moduleName) ~;;
        remoteCosmic <~ lift (support_get env moduleName) ;;
        let mergeCosmic := merge_list remoteCosmic in
        emit (StderrWrite ("!!! FileUtil - openLocalCosmic - mergeCosmic: "
                           +++ JSON_stringify env (JArray mergeCosmic) +++ LF)) ~;;
        places <~ lift (get options "searchPlaces") ;;
        searchPlacesMerge <~
          (if isArray places then run_throw (ReferenceError "searchPlaces")
           else run_ret (map JString (s_DEFAULT_COSMIC_SEARCHPLACES moduleName))) ;;
        merged <~ lift (merge_cosmic mergeCosmic searchPlacesMerge esm_loaders) ;;
        let cosmicOptions := cosmic_options (snd merged) (fst merged) in
        emit (StderrWrite ("!!! FileUtil - openLocalCosmic - options: "
                           +++ JSON_stringify env cosmicOptions +++ LF)) ~;;
        emit (CosmiconfigCreated moduleName cosmicOptions) ~;;
        explorer <~ lift (cosmiconfig env moduleName cosmicOptions) ;;
        emit (StderrWrite ("!!! FileUtil - openLocalCosmic - baseCWD: "
                           +++ bundler_baseCWD global +++ LF)) ~;;
        emit (SearchStarted (bundler_baseCWD global)) ~;;
        lift (search explorer (bundler_baseCWD global))
    | _ => run_throw (TypeError "'options.moduleName' is not a 'string'")
    end.

End Cosmic.

(** The collaborators [env] with the support request answering [answer]. *)
Definition with_support (env : Collaborators) (answer : Result JS) : Collaborators :=
  {| support_get := fun _ => answer;
     JSON_stringify := JSON_stringify env;
     cosmiconfig := cosmiconfig env |}.

(** Collaborators for running the definitions: no plugin answers the support
    request, [JSON.stringify] is not looked at, and the search finds
    [found]. *)
Definition quiet_collaborators (found : JS) : Collaborators :=
  {| support_get := fun _ => Ok JUndefined;
     JSON_stringify := fun _ => "";
     cosmiconfig := fun _ _ => Ok (mkExplorer (fun _ => Ok found)) |}.

(* ================================================================== *)
(** * Properties *)

Unset Implicit Arguments.

(** ** The path relativizer *)

Lemma startsWith_String (c a : ascii) (s p : string) :
  startsWith (String c s) (String a p)
  = if ascii_dec a c then startsWith s p else false.
Proof. reflexivity. Qed.

Lemma startsWith_empty (s : string) : startsWith s "" = true.
Proof. destruct s; reflexivity. Qed.

Lemma dot_prefixed (s : string) : startsWith ("." +++ s) "." = true.
Proof.
  change ("." +++ s) with (String "."%char s).
  rewrite startsWith_String.
  destruct (ascii_dec "."%char "."%char); [apply startsWith_empty | congruence].
Qed.

Lemma startsWith_append (p s : string) : startsWith (p +++ s) p = true.
Proof.
  induction p as [|c p IH]; [apply startsWith_empty|].
  change (String c p +++ s) with (String c (p +++ s)).
  rewrite startsWith_String.
  destruct (ascii_dec c c); [exact IH | congruence].
Qed.

Lemma sep_not_dot (path : NodePath) (s : string) :
  startsWith ("." +++ s) (sep path) = false.
Proof.
  unfold sep; destruct (platform path); reflexivity.
Qed.

Lemma dot_not_sep (path : NodePath) (s : string) :
  startsWith s "." = true -> startsWith s (sep path) = false.
Proof.
  destruct s as [|c s]; [discriminate|].
  rewrite startsWith_String.
  destruct (ascii_dec "."%char c) as [<-|]; [|discriminate].
  intros _; unfold sep; destruct (platform path); reflexivity.
Qed.

(** C7 (as amended).  When [filePath] starts with [basePath] the result of
    [getRelativePath] begins with the character ["."] and does not begin with
    the platform separator: it is [path.relative(basePath, filePath)] itself
    when that begins with ["."], and otherwise that path behind the
    current-directory marker and the separator.  When [filePath] does not
    start with [basePath], the result is [filePath] itself. *)
Theorem getRelativePath_spec (path : NodePath) (basePath filePath : string) :
  (startsWith filePath basePath = true ->
     startsWith (getRelativePath path basePath filePath) "." = true /\
     startsWith (getRelativePath path basePath filePath) (sep path) = false /\
     (startsWith (relative path basePath filePath) "." = true ->
        getRelativePath path basePath filePath
        = relative path basePath filePath) /\
     (startsWith (relative path basePath filePath) "." = false ->
        getRelativePath path basePath filePath
        = "." +++ sep path +++ relative path basePath filePath /\
        current_dir_marked path (getRelativePath path basePath filePath) = true)) /\
  (startsWith filePath basePath = false ->
     getRelativePath path basePath filePath = filePath).
Proof.
  unfold getRelativePath; split; intros H; rewrite H; [|reflexivity].
  destruct (startsWith (relative path basePath filePath) ".") eqn:E.
  - split; [exact E | split; [apply dot_not_sep; exact E|]].
    split; [reflexivity | discriminate].
  - split; [apply dot_prefixed | split; [apply sep_not_dot|]].
    split; [discriminate|].
    intros _; split; [reflexivity|].
    unfold current_dir_marked; apply orb_true_iff; right.
    change ("." +++ sep path +++ relative path basePath filePath)
      with (("." +++ sep path) +++ relative path basePath filePath).
    apply startsWith_append.
Qed.

Lemma getRelativePath_spec_witness :
  (startsWith "/proj/src/a.js" "/proj" = true /\
   startsWith (getRelativePath (posix "/") "/proj" "/proj/src/a.js") "." = true /\
   startsWith (getRelativePath (posix "/") "/proj" "/proj/src/a.js") "/" = false /\
   current_dir_marked (posix "/")
     (getRelativePath (posix "/") "/proj" "/proj/src/a.js") = true) /\
  (startsWith "/proj/.babelrc" "/proj" = true /\
   getRelativePath (posix "/") "/proj" "/proj/.babelrc"
   = relative (posix "/") "/proj" "/proj/.babelrc") /\
  (startsWith "/other/a.js" "/proj" = false /\
   getRelativePath (posix "/") "/proj" "/other/a.js" = "/other/a.js").
Proof.
  split; [|split].
  - split; [reflexivity|].
    destruct (proj1 (getRelativePath_spec (posix "/") "/proj" "/proj/src/a.js")
                    eq_refl) as (Hdot & Hsep & _ & Hmark).
    split; [exact Hdot | split; [exact Hsep | exact (proj2 (Hmark eq_refl))]].
  - split; [reflexivity|].
    destruct (proj1 (getRelativePath_spec (posix "/") "/proj" "/proj/.babelrc")
                    eq_refl) as (_ & _ & Hsame & _).
    exact (Hsame eq_refl).
  - split; [reflexivity|].
    apply (proj2 (getRelativePath_spec (posix "/") "/proj" "/other/a.js")).
    reflexivity.
Defined.

(** C7 (as stated) fails: [filePath] starts with [basePath], yet the result
    begins with the parent-directory marker, respectively with the name of a
    dot file, and not with a current-directory marker. *)
Lemma getRelativePath_without_current_dir_marker :
  (startsWith "/project/a.js" "/proj" = true /\
   getRelativePath (posix "/") "/proj" "/project/a.js" = "../project/a.js" /\
   current_dir_marked (posix "/")
     (getRelativePath (posix "/") "/proj" "/project/a.js") = false) /\
  (startsWith "/proj/.babelrc" "/proj" = true /\
   getRelativePath (posix "/") "/proj" "/proj/.babelrc" = ".babelrc" /\
   current_dir_marked (posix "/")
     (getRelativePath (posix "/") "/proj" "/proj/.babelrc") = false).
Proof. repeat split. Qed.

Example getRelativePath_inside :
  getRelativePath (posix "/") "/proj" "/proj/src/a.js" = "./src/a.js".
Proof. reflexivity. Qed.

Example getRelativePath_same :
  getRelativePath (posix "/") "/proj" "/proj" = "./".
Proof. reflexivity. Qed.

Example getRelativePath_sibling_prefix :
  getRelativePath (posix "/") "/proj" "/project/a.js" = "../project/a.js".
Proof. reflexivity. Qed.

Example getRelativePath_dot_file :
  getRelativePath (posix "/") "/proj" "/proj/.babelrc" = ".babelrc".
Proof. reflexivity. Qed.

(* ------------------------------------------------------------------ *)
(** ** Computations *)

Lemma bind_pair {A B} (a : A) (t : list Event) (k : A -> Eff B) :
  bind (a, t) k = (value (k a), t ++ events (k a)).
Proof. unfold bind, value, events; destruct (k a); reflexivity. Qed.

Lemma eff_eta {A} (m : Eff A) : m = (value m, events m).
Proof. destruct m; reflexivity. Qed.

Lemma strict_neq_true (a b : string) : strict_neq a b = true <-> a <> b.
Proof.
  unfold strict_neq; rewrite negb_true_iff; apply String.eqb_neq.
Qed.

Lemma strict_neq_false (a b : string) : strict_neq a b = false <-> a = b.
Proof.
  unfold strict_neq; rewrite negb_false_iff; apply String.eqb_eq.
Qed.

(* ------------------------------------------------------------------ *)
(** ** The candidate resolver, asynchronous class *)

Section AsyncResolver.

Variable path : NodePath.
Variable global : Global.
Variable world : World.

(** One turn of the loop, by cases on the world. *)
Lemma async_openFiles_cons basePath stem ext rest msg :
  Async.openFiles path global world basePath stem (ext :: rest) msg =
  let abs := candidate path basePath stem ext in
  if existsSync world abs then
    match require world abs with
    | Returned d =>
        (Ok (Some (async_result path global basePath stem ext d)),
         [FsExists abs; Required abs])
    | Thrown err =>
        match import world abs with
        | Returned m =>
            (Ok (Some (async_result path global basePath stem ext (default m))),
             [FsExists abs; Required abs; Imported abs])
        | Thrown errESM =>
            match err, errESM with
            | Readable message, Readable messageESM =>
                (Ok None,
                 [FsExists abs; Required abs; Imported abs;
                  LogWarn (Async.warning path global msg message messageESM abs)])
            | Unreadable raised, _ =>
                (Throw raised, [FsExists abs; Required abs; Imported abs])
            | Readable _, Unreadable raised =>
                (Throw raised, [FsExists abs; Required abs; Imported abs])
            end
        end
    end
  else (value (Async.openFiles path global world basePath stem rest msg),
        FsExists abs ::
        events (Async.openFiles path global world basePath stem rest msg)).
Proof.
  cbv zeta; simpl Async.openFiles.
  unfold bind, fs_existsSync, try_require, try_import, log_warn, ret.
  fold (candidate path basePath stem ext).
  destruct (existsSync world (candidate path basePath stem ext)).
  - destruct (require world (candidate path basePath stem ext)) as [d|err];
      [reflexivity|].
    destruct (import world (candidate path basePath stem ext)) as [m|errESM];
      [reflexivity|].
    destruct err, errESM; reflexivity.
  - destruct (Async.openFiles path global world basePath stem rest msg);
      reflexivity.
Qed.

(** Candidates that do not exist are probed and passed over. *)
Lemma async_openFiles_skip basePath stem pre rest msg :
  all_missing path world basePath stem pre ->
  Async.openFiles path global world basePath stem (pre ++ rest) msg =
  (value (Async.openFiles path global world basePath stem rest msg),
   probes path basePath stem pre
   ++ events (Async.openFiles path global world basePath stem rest msg)).
Proof.
  induction 1 as [|ext pre Hext _ IH]; [apply eff_eta|].
  change ((ext :: pre) ++ rest) with (ext :: (pre ++ rest)).
  rewrite async_openFiles_cons; cbv zeta.
  rewrite Hext, IH; reflexivity.
Qed.

Lemma probes_no_warning basePath stem exts :
  filter is_warning (probes path basePath stem exts) = [].
Proof. induction exts; simpl; auto. Qed.


End AsyncResolver.

(* ------------------------------------------------------------------ *)
(** ** The candidate resolver, synchronous class *)

Section SyncResolver.

Variable path : NodePath.
Variable global : Global.
Variable world : World.

Lemma sync_openFiles_cons basePath stem ext rest msg :
  Sync.openFiles path global world basePath stem (ext :: rest) msg =
  let abs := candidate path basePath stem ext in
  if existsSync world abs then
    match require world abs with
    | Returned d =>
        (Ok (Some (sync_result path global basePath stem ext d)),
         [FsExists abs; Required abs])
    | Thrown (Readable message) =>
        (Ok None,
         [FsExists abs; Required abs;
          LogWarn (Sync.warning path global msg message abs)])
    | Thrown (Unreadable raised) =>
        (Throw raised, [FsExists abs; Required abs])
    end
  else (value (Sync.openFiles path global world basePath stem rest msg),
        FsExists abs ::
        events (Sync.openFiles path global world basePath stem rest msg)).
Proof.
  cbv zeta; simpl Sync.openFiles.
  unfold bind, fs_existsSync, try_require, log_warn, ret.
  fold (candidate path basePath stem ext).
  destruct (existsSync world (candidate path basePath stem ext)).
  - destruct (require world (candidate path basePath stem ext)) as [d|[m|e]];
      reflexivity.
  - destruct (Sync.openFiles path global world basePath stem rest msg);
      reflexivity.
Qed.

Lemma sync_openFiles_skip basePath stem pre rest msg :
  all_missing path world basePath stem pre ->
  Sync.openFiles path global world basePath stem (pre ++ rest) msg =
  (value (Sync.openFiles path global world basePath stem rest msg),
   probes path basePath stem pre
   ++ events (Sync.openFiles path global world basePath stem rest msg)).
Proof.
  induction 1 as [|ext pre Hext _ IH]; [apply eff_eta|].
  change ((ext :: pre) ++ rest) with (ext :: (pre ++ rest)).
  rewrite sync_openFiles_cons; cbv zeta.
  rewrite Hext, IH; reflexivity.
Qed.

End SyncResolver.

(* ------------------------------------------------------------------ *)
(** ** The resolvers: what a call returns and what it does *)

Section ResolverProperties.

Variable path : NodePath.
Variable global : Global.
Variable world : World.

(** C9.  With an empty extension list [openFiles] returns [null] and
    performs no event at all: no warning, no existence check, no load.
    This holds for the asynchronous and for the synchronous class. *)
Theorem openFiles_no_extensions basePath stem msg :
  (value (Async.openFiles path global world basePath stem [] msg) = Ok None /\
   events (Async.openFiles path global world basePath stem [] msg) = []) /\
  (value (Sync.openFiles path global world basePath stem [] msg) = Ok None /\
   events (Sync.openFiles path global world basePath stem [] msg) = []).
Proof. repeat split. Qed.

(** X22.  When the first existing candidate cannot be loaded by [require]
    nor by dynamic [import] and the message of both caught values can be
    read, the asynchronous [openFiles] returns [null]; its events are the
    existence checks up to that candidate, the two load attempts on it and one
    warning, so that exactly one warning is emitted and nothing is done for
    the extensions after it.  When the message of a caught value cannot be
    read (a thrown [null] or [undefined]), the call raises what that read
    throws, after the same checks and load attempts and without any warning.
    The synchronous class does the same with its single [require]
    attempt. *)
Theorem openFiles_unloadable_candidate basePath stem pre ext post msg :
  all_missing path world basePath stem pre ->
  existsSync world (candidate path basePath stem ext) = true ->
  (forall message messageESM,
     require world (candidate path basePath stem ext) = Thrown (Readable message) ->
     import world (candidate path basePath stem ext)
     = Thrown (Readable messageESM) ->
     let run :=
       Async.openFiles path global world basePath stem (pre ++ ext :: post) msg in
     value run = Ok None /\
     events run =
       probes path basePath stem pre ++
       [FsExists (candidate path basePath stem ext);
        Required (candidate path basePath stem ext);
        Imported (candidate path basePath stem ext);
        LogWarn (Async.warning path global msg message messageESM
                               (candidate path basePath stem ext))] /\
     length (filter is_warning (events run)) = 1) /\
  (forall err errESM raised,
     require world (candidate path basePath stem ext) = Thrown err ->
     import world (candidate path basePath stem ext) = Thrown errESM ->
     first_unreadable err errESM = Some raised ->
     let run :=
       Async.openFiles path global world basePath stem (pre ++ ext :: post) msg in
     value run = Throw raised /\
     events run =
       probes path basePath stem pre ++
       [FsExists (candidate path basePath stem ext);
        Required (candidate path basePath stem ext);
        Imported (candidate path basePath stem ext)] /\
     filter is_warning (events run) = []) /\
  (forall message,
     require world (candidate path basePath stem ext) = Thrown (Readable message) ->
     let run :=
       Sync.openFiles path global world basePath stem (pre ++ ext :: post) msg in
     value run = Ok None /\
     events run =
       probes path basePath stem pre ++
       [FsExists (candidate path basePath stem ext);
        Required (candidate path basePath stem ext);
        LogWarn (Sync.warning path global msg message
                              (candidate path basePath stem ext))] /\
     length (filter is_warning (events run)) = 1) /\
  (forall raised,
     require world (candidate path basePath stem ext)
     = Thrown (Unreadable raised) ->
     let run :=
       Sync.openFiles path global world basePath stem (pre ++ ext :: post) msg in
     value run = Throw raised /\
     events run =
       probes path basePath stem pre ++
       [FsExists (candidate path basePath stem ext);
        Required (candidate path basePath stem ext)] /\
     filter is_warning (events run) = []).
Proof.
  intros Hpre Hext; split; [|split; [|split]].
  - intros message messageESM Hreq Himp run; subst run.
    rewrite async_openFiles_skip by exact Hpre.
    rewrite async_openFiles_cons; cbv zeta; rewrite Hext, Hreq, Himp.
    unfold value, events; cbn [fst snd]; repeat split.
    rewrite filter_app, probes_no_warning; reflexivity.
  - intros err errESM raised Hreq Himp Hraised run; subst run.
    rewrite async_openFiles_skip by exact Hpre.
    rewrite async_openFiles_cons; cbv zeta; rewrite Hext, Hreq, Himp.
    unfold value, events.
    destruct err as [message|r], errESM as [messageESM|rESM];
      simpl in Hraised; try discriminate Hraised;
      injection Hraised as ->; cbn [fst snd]; repeat split;
      rewrite filter_app, probes_no_warning; reflexivity.
  - intros message Hreq run; subst run.
    rewrite sync_openFiles_skip by exact Hpre.
    rewrite sync_openFiles_cons; cbv zeta; rewrite Hext, Hreq.
    unfold value, events; cbn [fst snd]; repeat split.
    rewrite filter_app, probes_no_warning; reflexivity.
  - intros raised Hreq run; subst run.
    rewrite sync_openFiles_skip by exact Hpre.
    rewrite sync_openFiles_cons; cbv zeta; rewrite Hext, Hreq.
    unfold value, events; cbn [fst snd]; repeat split.
    rewrite filter_app, probes_no_warning; reflexivity.
Qed.


(** C4.  The asynchronous [openFiles] checks the candidates in the order of
    the extension list.  A candidate that does not exist costs one existence
    check and nothing else; the first candidate that exists is the only one
    on which a load is attempted, and the extensions after it are not
    looked at; the result is the object built for that candidate unless
    both loaders throw on it (the call then returns [null], or raises what
    reading the message of a caught value throws).  When no candidate exists
    the result is [null] after one existence check per extension, without
    any warning. *)
Theorem openFiles_first_existing basePath stem msg :
  (forall pre ext post,
     all_missing path world basePath stem pre ->
     existsSync world (candidate path basePath stem ext) = true ->
     let run :=
       Async.openFiles path global world basePath stem (pre ++ ext :: post) msg in
     exists tail,
       events run =
         probes path basePath stem pre ++
         FsExists (candidate path basePath stem ext) ::
         Required (candidate path basePath stem ext) :: tail /\
       Forall (fun e => e = Imported (candidate path basePath stem ext)
                        \/ is_warning e = true) tail /\
       match value run with
       | Ok (Some r) =>
           extension r = ext /\
           absFilePath r = candidate path basePath stem ext
       | Ok None =>
           exists message messageESM,
             require world (candidate path basePath stem ext)
             = Thrown (Readable message) /\
             import world (candidate path basePath stem ext)
             = Thrown (Readable messageESM)
       | Throw raised =>
           exists err errESM,
             require world (candidate path basePath stem ext) = Thrown err /\
             import world (candidate path basePath stem ext) = Thrown errESM /\
             first_unreadable err errESM = Some raised
       end) /\
  (forall exts,
     all_missing path world basePath stem exts ->
     Async.openFiles path global world basePath stem exts msg
     = (Ok None, probes path basePath stem exts)).
Proof.
  split.
  - intros pre ext post Hpre Hext run; subst run.
    rewrite async_openFiles_skip by exact Hpre.
    rewrite async_openFiles_cons; cbv zeta; rewrite Hext.
    destruct (require world (candidate path basePath stem ext))
      as [d|err] eqn:Hreq.
    + exists []; repeat split; constructor.
    + destruct (import world (candidate path basePath stem ext))
        as [m|errESM] eqn:Himp.
      * exists [Imported (candidate path basePath stem ext)].
        repeat split; repeat constructor; auto.
      * destruct err as [message|raised], errESM as [messageESM|raisedESM].
        -- eexists; split; [reflexivity|split].
           ++ constructor; [left; reflexivity|].
              constructor; [right; reflexivity|constructor].
           ++ exists message, messageESM; split; reflexivity.
        -- exists [Imported (candidate path basePath stem ext)].
           split; [reflexivity|split]; [repeat constructor; auto|].
           do 2 eexists; repeat split; reflexivity.
        -- exists [Imported (candidate path basePath stem ext)].
           split; [reflexivity|split]; [repeat constructor; auto|].
           do 2 eexists; repeat split; reflexivity.
        -- exists [Imported (candidate path basePath stem ext)].
           split; [reflexivity|split]; [repeat constructor; auto|].
           do 2 eexists; repeat split; reflexivity.
  - intros exts Hall.
    rewrite <- (app_nil_r exts) at 1.
    rewrite async_openFiles_skip by exact Hall.
    simpl; rewrite app_nil_r; reflexivity.
Qed.

(** C1.  [openLocalConfigs], in both classes.  When the working root
    differs from the original root, [openFiles] runs on the working root
    and a non-null result is returned at once, nothing more being done;
    when that result is [null] the call continues with [openFiles] on the
    original root and returns what it returns.  When the two roots are
    equal, the call is [openFiles] on the original root.  What [openFiles]
    raises on the working root is raised by the call, nothing more being
    done. *)
Theorem openLocalConfigs_dual_root stem exts msg :
  let base := bundler_baseCWD global in
  let orig := bundler_origCWD global in
  (let first := Async.openFiles path global world base stem exts msg in
   let second := Async.openFiles path global world orig stem exts msg in
   let result := Async.openLocalConfigs path global world stem exts msg in
   (base <> orig -> forall r, value first = Ok (Some r) ->
      value result = Ok (Some r) /\ events result = events first) /\
   (base <> orig -> value first = Ok None ->
      value result = value second /\
      events result = events first ++ events second) /\
   (base = orig -> result = second) /\
   (base <> orig -> forall raised, value first = Throw raised ->
      value result = Throw raised /\ events result = events first)) /\
  (let first := Sync.openFiles path global world base stem exts msg in
   let second := Sync.openFiles path global world orig stem exts msg in
   let result := Sync.openLocalConfigs path global world stem exts msg in
   (base <> orig -> forall r, value first = Ok (Some r) ->
      value result = Ok (Some r) /\ events result = events first) /\
   (base <> orig -> value first = Ok None ->
      value result = value second /\
      events result = events first ++ events second) /\
   (base = orig -> result = second) /\
   (base <> orig -> forall raised, value first = Throw raised ->
      value result = Throw raised /\ events result = events first)).
Proof.
  intros base orig; subst base orig; split; cbv zeta.
  - unfold Async.openLocalConfigs; split; [|split; [|split]].
    + intros Hne r Hr; apply strict_neq_true in Hne; rewrite Hne.
      rewrite (eff_eta (Async.openFiles _ _ _ (bundler_baseCWD global) _ _ _)),
        bind_pair, Hr.
      split; [reflexivity | apply app_nil_r].
    + intros Hne Hr; apply strict_neq_true in Hne; rewrite Hne.
      rewrite (eff_eta (Async.openFiles _ _ _ (bundler_baseCWD global) _ _ _)),
        bind_pair, Hr.
      split; reflexivity.
    + intros Heq; apply strict_neq_false in Heq; rewrite Heq; reflexivity.
    + intros Hne raised Hr; apply strict_neq_true in Hne; rewrite Hne.
      rewrite (eff_eta (Async.openFiles _ _ _ (bundler_baseCWD global) _ _ _)),
        bind_pair, Hr.
      split; [reflexivity | apply app_nil_r].
  - unfold Sync.openLocalConfigs; split; [|split; [|split]].
    + intros Hne r Hr; apply strict_neq_true in Hne; rewrite Hne.
      rewrite (eff_eta (Sync.openFiles _ _ _ (bundler_baseCWD global) _ _ _)),
        bind_pair, Hr.
      split; [reflexivity | apply app_nil_r].
    + intros Hne Hr; apply strict_neq_true in Hne; rewrite Hne.
      rewrite (eff_eta (Sync.openFiles _ _ _ (bundler_baseCWD global) _ _ _)),
        bind_pair, Hr.
      split; reflexivity.
    + intros Heq; apply strict_neq_false in Heq; rewrite Heq; reflexivity.
    + intros Hne raised Hr; apply strict_neq_true in Hne; rewrite Hne.
      rewrite (eff_eta (Sync.openFiles _ _ _ (bundler_baseCWD global) _ _ _)),
        bind_pair, Hr.
      split; [reflexivity | apply app_nil_r].
Qed.

End ResolverProperties.

(* ------------------------------------------------------------------ *)
(** ** The resolvers on concrete worlds *)

Lemma openFiles_unloadable_candidate_witness :
  let world :=
    broken_file_world "/proj/config.js" "Unexpected token" "Cannot use import" in
  let thrown_null := nullish_file_world "/proj/config.js" in
  let global := mkGlobal "/proj" "/proj" in
  (value (Async.openFiles (posix "/") global world "/proj" "config"
                          [".json"; ".js"; ".cjs"] "config:") = Ok None /\
   events (Async.openFiles (posix "/") global world "/proj" "config"
                           [".json"; ".js"; ".cjs"] "config:") =
     [FsExists "/proj/config.json"; FsExists "/proj/config.js";
      Required "/proj/config.js"; Imported "/proj/config.js";
      LogWarn ("config:" +++ LF +++ "require error: Unexpected token" +++ LF
               +++ "dynamic import error: Cannot use import" +++ LF
               +++ "file path: ./config.js")]) /\
  (value (Sync.openFiles (posix "/") global world "/proj" "config"
                         [".json"; ".js"; ".cjs"] "config:") = Ok None /\
   events (Sync.openFiles (posix "/") global world "/proj" "config"
                          [".json"; ".js"; ".cjs"] "config:") =
     [FsExists "/proj/config.json"; FsExists "/proj/config.js";
      Required "/proj/config.js";
      LogWarn ("config:Unexpected token:" +++ LF +++ "./config.js")]) /\
  (value (Async.openFiles (posix "/") global thrown_null "/proj" "config"
                          [".json"; ".js"; ".cjs"] "config:")
   = Throw (PropertyOfNullish "message") /\
   value (Sync.openFiles (posix "/") global thrown_null "/proj" "config"
                         [".json"; ".js"; ".cjs"] "config:")
   = Throw (PropertyOfNullish "message")).
Proof.
  intros world thrown_null global.
  assert (Hpre : all_missing (posix "/") world "/proj" "config" [".json"])
    by (repeat constructor).
  assert (Hpre' : all_missing (posix "/") thrown_null "/proj" "config" [".json"])
    by (repeat constructor).
  destruct (openFiles_unloadable_candidate (posix "/") global world
              "/proj" "config" [".json"] ".js" [".cjs"] "config:" Hpre eq_refl)
    as (HA & _ & HS & _).
  destruct (openFiles_unloadable_candidate (posix "/") global thrown_null
              "/proj" "config" [".json"] ".js" [".cjs"] "config:" Hpre' eq_refl)
    as (_ & HA' & _ & HS').
  destruct (HA "Unexpected token" "Cannot use import" eq_refl eq_refl)
    as (Hv & He & _).
  destruct (HS "Unexpected token" eq_refl) as (Hv' & He' & _).
  destruct (HA' nullish nullish (PropertyOfNullish "message")
                eq_refl eq_refl eq_refl) as (Hr & _).
  destruct (HS' (PropertyOfNullish "message") eq_refl) as (Hr' & _).
  split; [split|split; [split|split]]; assumption.
Defined.


Lemma openFiles_first_existing_witness :
  let global := mkGlobal "/proj" "/proj" in
  let world := single_file_world "/proj/config.js" (VString "cjs") in
  (exists r,
     value (Async.openFiles (posix "/") global world "/proj" "config"
                            [".json"; ".js"] "") = Ok (Some r) /\
     extension r = ".js" /\ absFilePath r = "/proj/config.js") /\
  Async.openFiles (posix "/") global world "/proj" "config" [".json"; ".cjs"] ""
  = (Ok None, [FsExists "/proj/config.json"; FsExists "/proj/config.cjs"]).
Proof.
  intros global world.
  destruct (openFiles_first_existing (posix "/") global world "/proj" "config" "")
    as [Hfirst Hnone].
  split.
  - assert (Hpre : all_missing (posix "/") world "/proj" "config" [".json"])
      by (repeat constructor).
    destruct (Hfirst [".json"] ".js" [] Hpre eq_refl) as (tail & _ & _ & Hres).
    cbv zeta in Hres.
    destruct (value (Async.openFiles (posix "/") global world "/proj" "config"
                                     ([".json"] ++ [".js"]) ""))
      as [[r|]|raised] eqn:E.
    + exists r; split; [exact E | exact Hres].
    + destruct Hres as (m & mESM & Hr & _); discriminate Hr.
    + destruct Hres as (err & errESM & Hr & _); discriminate Hr.
  - apply Hnone; repeat constructor.
Defined.

Lemma openLocalConfigs_dual_root_witness :
  let split_roots := mkGlobal "/work" "/orig" in
  let same_roots := mkGlobal "/orig" "/orig" in
  let in_work := single_file_world "/work/config.js" (VString "work") in
  let in_orig := single_file_world "/orig/config.js" (VString "orig") in
  (Async.openLocalConfigs (posix "/") split_roots in_work "config" [".js"] ""
   = (Ok (Some (async_result (posix "/") split_roots "/work" "config" ".js"
                             (VString "work"))),
      [FsExists "/work/config.js"; Required "/work/config.js"]) /\
   Async.openLocalConfigs (posix "/") split_roots in_orig "config" [".js"] ""
   = (Ok (Some (async_result (posix "/") split_roots "/orig" "config" ".js"
                             (VString "orig"))),
      [FsExists "/work/config.js"; FsExists "/orig/config.js";
       Required "/orig/config.js"]) /\
   Async.openLocalConfigs (posix "/") same_roots in_orig "config" [".js"] ""
   = Async.openFiles (posix "/") same_roots in_orig "/orig" "config" [".js"] "") /\
  (Sync.openLocalConfigs (posix "/") split_roots in_work "config" [".js"] ""
   = (Ok (Some (sync_result (posix "/") split_roots "/work" "config" ".js"
                            (VString "work"))),
      [FsExists "/work/config.js"; Required "/work/config.js"]) /\
   Sync.openLocalConfigs (posix "/") split_roots in_orig "config" [".js"] ""
   = (Ok (Some (sync_result (posix "/") split_roots "/orig" "config" ".js"
                            (VString "orig"))),
      [FsExists "/work/config.js"; FsExists "/orig/config.js";
       Required "/orig/config.js"]) /\
   Sync.openLocalConfigs (posix "/") same_roots in_orig "config" [".js"] ""
   = Sync.openFiles (posix "/") same_roots in_orig "/orig" "config" [".js"] "") /\
  (Async.openLocalConfigs (posix "/") split_roots
                          (nullish_file_world "/work/config.js") "config" [".js"] ""
   = (Throw (PropertyOfNullish "message"),
      [FsExists "/work/config.js"; Required "/work/config.js";
       Imported "/work/config.js"]) /\
   Sync.openLocalConfigs (posix "/") split_roots
                         (nullish_file_world "/work/config.js") "config" [".js"] ""
   = (Throw (PropertyOfNullish "message"),
      [FsExists "/work/config.js"; Required "/work/config.js"])).
Proof.
  intros split_roots same_roots in_work in_orig.
  assert (Hne : "/work" <> "/orig") by discriminate.
  destruct (openLocalConfigs_dual_root (posix "/") split_roots in_work
              "config" [".js"] "") as [[A1 _] [S1 _]].
  destruct (openLocalConfigs_dual_root (posix "/") split_roots in_orig
              "config" [".js"] "") as [(_ & A2 & _) (_ & S2 & _)].
  destruct (openLocalConfigs_dual_root (posix "/") same_roots in_orig
              "config" [".js"] "") as [(_ & _ & A3 & _) (_ & _ & S3 & _)].
  destruct (openLocalConfigs_dual_root (posix "/") split_roots
              (nullish_file_world "/work/config.js") "config" [".js"] "")
    as [(_ & _ & _ & A4) (_ & _ & _ & S4)].
  cbv zeta in *.
  destruct (A1 Hne _ eq_refl) as [A1v A1e].
  destruct (A2 Hne eq_refl) as [A2v A2e].
  destruct (S1 Hne _ eq_refl) as [S1v S1e].
  destruct (S2 Hne eq_refl) as [S2v S2e].
  destruct (A4 Hne _ eq_refl) as [A4v A4e].
  destruct (S4 Hne _ eq_refl) as [S4v S4e].
  split; [|split]; [split; [|split] | split; [|split] | split].
  - rewrite (eff_eta (Async.openLocalConfigs _ _ _ _ _ _)), A1v, A1e; reflexivity.
  - rewrite (eff_eta (Async.openLocalConfigs _ _ _ _ _ _)), A2v, A2e; reflexivity.
  - exact (A3 eq_refl).
  - rewrite (eff_eta (Sync.openLocalConfigs _ _ _ _ _ _)), S1v, S1e; reflexivity.
  - rewrite (eff_eta (Sync.openLocalConfigs _ _ _ _ _ _)), S2v, S2e; reflexivity.
  - exact (S3 eq_refl).
  - rewrite (eff_eta (Async.openLocalConfigs _ _ _ _ _ _)), A4v, A4e; reflexivity.
  - rewrite (eff_eta (Sync.openLocalConfigs _ _ _ _ _ _)), S4v, S4e; reflexivity.
Defined.

(** On every successful load of the asynchronous class, [relativePath] is
    [getRelativePath] applied to the working root [bundler_baseCWD]. *)
Lemma async_openFiles_relativePath path global world basePath stem exts msg r :
  value (Async.openFiles path global world basePath stem exts msg) = Ok (Some r) ->
  relativePath r = getRelativePath path (bundler_baseCWD global) (absFilePath r).
Proof.
  induction exts as [|ext rest IH]; [discriminate|].
  rewrite async_openFiles_cons; cbv zeta.
  destruct (existsSync world (candidate path basePath stem ext)); [|exact IH].
  destruct (require world (candidate path basePath stem ext)) as [d|err].
  - intros [= <-]; reflexivity.
  - destruct (import world (candidate path basePath stem ext)) as [m|errESM].
    + intros [= <-]; reflexivity.
    + destruct err, errESM; discriminate.
Qed.

(** On every successful load of the synchronous class, [relativePath] is
    [getRelativePath] applied to the original root [bundler_origCWD]. *)
Lemma sync_openFiles_relativePath path global world basePath stem exts msg r :
  value (Sync.openFiles path global world basePath stem exts msg) = Ok (Some r) ->
  relativePath r = getRelativePath path (bundler_origCWD global) (absFilePath r).
Proof.
  induction exts as [|ext rest IH]; [discriminate|].
  rewrite sync_openFiles_cons; cbv zeta.
  destruct (existsSync world (candidate path basePath stem ext)); [|exact IH].
  destruct (require world (candidate path basePath stem ext)) as [d|[m|e]].
  - intros [= <-]; reflexivity.
  - discriminate.
  - discriminate.
Qed.

(** C5.  With working root [/work] and original root [/orig], loading
    [/orig/config.json] through the asynchronous [openFiles] gives the
    [relativePath] ["/orig/config.json"]: the path is relativized against the
    working root, under which the file does not lie, and comes back unchanged.
    Relativized against the original root it is ["./config.json"], which is
    what the synchronous [openFiles] returns and what the warning of the
    asynchronous one would print. *)
Theorem async_openFiles_relativePath_divergence :
  let global := mkGlobal "/work" "/orig" in
  let world := single_file_world "/orig/config.json" (VString "orig") in
  option_map relativePath
    (returned
       (value (Async.openFiles (posix "/") global world "/orig" "config"
                               [".json"] "")))
  = Some "/orig/config.json" /\
  getRelativePath (posix "/") (bundler_origCWD global) "/orig/config.json"
  = "./config.json" /\
  option_map relativePath
    (returned
       (value (Sync.openFiles (posix "/") global world "/orig" "config"
                              [".json"] "")))
  = Some "./config.json".
Proof. repeat split. Qed.

(** The precedence example: stem ["config"], extensions [.json] then [.js],
    a directory holding only [config.js]. *)
Example openFiles_config_js :
  Async.openFiles (posix "/") (mkGlobal "/proj" "/proj")
                  (single_file_world "/proj/config.js" (VString "cfg"))
                  "/proj" "config" [".json"; ".js"] ""
  = (Ok (Some {| absFilePath := "/proj/config.js";
                 baseFileName := "config";
                 extension := ".js";
                 fileName := "config.js";
                 relativePath := "./config.js";
                 data := VString "cfg" |}),
     [FsExists "/proj/config.json"; FsExists "/proj/config.js";
      Required "/proj/config.js"]).
Proof. reflexivity. Qed.

(** The short-circuit example: [config.js] exists and cannot be loaded, so
    [.cjs] is never looked at although [config.cjs] would have loaded. *)
Example openFiles_broken_config_js :
  let world :=
    {| existsSync := fun p => String.eqb p "/proj/config.js"
                              || String.eqb p "/proj/config.cjs";
       require := fun p => if String.eqb p "/proj/config.cjs"
                           then Returned (VString "cjs")
                           else Thrown (Readable "Unexpected token");
       import := fun _ => Thrown (Readable "Unexpected token") |} in
  Async.openFiles (posix "/") (mkGlobal "/proj" "/proj") world
                  "/proj" "config" [".js"; ".cjs"] "cfg"
  = (Ok None,
     [FsExists "/proj/config.js"; Required "/proj/config.js";
      Imported "/proj/config.js";
      LogWarn ("cfg" +++ LF +++ "require error: Unexpected token" +++ LF
               +++ "dynamic import error: Unexpected token" +++ LF
               +++ "file path: ./config.js")]).
Proof. reflexivity. Qed.

(** C2.  The claim fails on a configuration file whose evaluation throws
    [null] (a file [config.js] whose code is [throw null]): [require] throws
    [null], the dynamic import rejects with [null], and the handler of
    [openFiles], reading [err.message] to build the warning, throws a
    TypeError.  The call raises it: no warning is emitted and [null] is not
    returned.  The later extension is not looked at. *)
Theorem openFiles_thrown_null_raises :
  let global := mkGlobal "/proj" "/proj" in
  let world := nullish_file_world "/proj/config.js" in
  Async.openFiles (posix "/") global world "/proj" "config" [".js"; ".cjs"] "cfg"
  = (Throw (PropertyOfNullish "message"),
     [FsExists "/proj/config.js"; Required "/proj/config.js";
      Imported "/proj/config.js"]) /\
  Sync.openFiles (posix "/") global world "/proj" "config" [".js"; ".cjs"] "cfg"
  = (Throw (PropertyOfNullish "message"),
     [FsExists "/proj/config.js"; Required "/proj/config.js"]) /\
  value (Async.openFiles (posix "/") global world "/proj" "config"
                         [".js"; ".cjs"] "cfg") <> Ok None /\
  filter is_warning
    (events (Async.openFiles (posix "/") global world "/proj" "config"
                             [".js"; ".cjs"] "cfg")) = [].
Proof.
  intros global world; repeat split; discriminate.
Qed.

(* ------------------------------------------------------------------ *)
(** ** Directory trees, generators and trails *)

(** Induction on a directory tree, with the property available for every
    entry of a directory's listing. *)
Lemma Dirent_nested_ind (P : Dirent -> Prop)
      (HFile : forall n, P (DFile n))
      (HOther : forall n, P (DOther n))
      (HDir : forall n listing, Forall P listing -> P (DDir n listing))
      (HDenied : forall n err, P (DDenied n err)) :
  forall d, P d.
Proof.
  fix IH 1.
  intros [n|n|n listing|n err];
    [apply HFile | apply HOther | apply HDir | apply HDenied].
  induction listing as [|c listing IHl]; constructor; [apply IH | exact IHl].
Qed.

Lemma map_has_nil (x : string) : map_has [] x = false.
Proof. reflexivity. Qed.

Lemma yields_gen_seq (g1 g2 : Gen) :
  yields (gen_seq g1 g2) = yields g1 \/
  (completion g1 = Done /\ yields (gen_seq g1 g2) = yields g1 ++ yields g2).
Proof.
  unfold gen_seq; destruct (completion g1); [right | left]; auto.
Qed.

Lemma gen_seq_done (g1 g2 : Gen) :
  completion (gen_seq g1 g2) = Done ->
  completion g1 = Done /\ completion g2 = Done /\
  yields (gen_seq g1 g2) = yields g1 ++ yields g2.
Proof.
  unfold gen_seq; destruct (completion g1) eqn:E; simpl; auto.
  rewrite E; discriminate.
Qed.

Lemma gen_seq_done_l (g : Gen) : gen_seq gen_done g = g.
Proof. destruct g; reflexivity. Qed.

(** In a loop that completes, every turn completes and its yields are among
    those of the loop. *)
Lemma for_await_done {A} (body : A -> Gen) (l : list A) (d : A) :
  completion (for_await body l) = Done -> In d l ->
  completion (body d) = Done /\
  incl (yields (body d)) (yields (for_await body l)).
Proof.
  induction l as [|x l IH]; [intros _ []|].
  simpl for_await; intros Hdone Hin.
  destruct (gen_seq_done _ _ Hdone) as (Hx & Hl & ->).
  destruct Hin as [->|Hin].
  - split; [assumption | apply incl_appl, incl_refl].
  - destruct (IH Hl Hin) as [H1 H2].
    split; [assumption | apply incl_appr; assumption].
Qed.

(** The yields of a loop are put together from those of its turns: when
    each turn's yields are the [f]-image of trails satisfying [Q], listed in a
    way [R] that is kept by concatenation, so are the loop's. *)
Lemma for_await_explained {A} (body : A -> Gen) (f : list Dirent -> string)
      (Q : list Dirent -> Prop) (R : list (list Dirent) -> Prop) (l : list A) :
  R [] ->
  (forall ts1 ts2, R ts1 -> R ts2 -> R (ts1 ++ ts2)) ->
  (forall d, In d l ->
     exists ts, yields (body d) = map f ts /\ Forall Q ts /\ R ts) ->
  exists ts, yields (for_await body l) = map f ts /\ Forall Q ts /\ R ts.
Proof.
  intros Rnil Rapp; induction l as [|x l IH]; intros H.
  - exists []; repeat split; [constructor | exact Rnil].
  - destruct (H x (or_introl eq_refl)) as (tsx & Hx & Qx & Rx).
    destruct IH as (tsl & Hl & Ql & Rl); [intros d Hd; apply H; right; exact Hd|].
    simpl for_await.
    destruct (yields_gen_seq (body x) (for_await body l)) as [E|[_ E]]; rewrite E.
    + exists tsx; auto.
    + exists (tsx ++ tsl); rewrite map_app, Hx, Hl.
      repeat split; [apply Forall_app; auto | apply Rapp; auto].
Qed.

(** Only the first entry of a trail has to be found in the listing. *)
Lemma Trail_weaken listing listing' t :
  Trail listing t ->
  (forall d, In d listing -> In d listing') ->
  Trail listing' t.
Proof.
  intros [l d Hd | l n sub t' Hd Ht] Hincl; constructor; auto.
Qed.

Lemma ancestors_first_nil : ancestors_first [].
Proof.
  intros ts1 t ts2 H; destruct ts1; discriminate.
Qed.

Lemma ancestors_first_app ts ts' :
  ancestors_first ts -> ancestors_first ts' -> ancestors_first (ts ++ ts').
Proof.
  intros H H' ts1 t ts2 E a b Et Ha Hb.
  apply app_eq_app in E; destruct E as (l & [[E1 E2]|[E1 E2]]).
  - destruct l as [|x l].
    + destruct (H' [] t ts2 (eq_sym E2) a b Et Ha Hb).
    + injection E2 as <- E2.
      apply (H ts1 t l E1 a b Et Ha Hb).
  - subst ts1; apply in_or_app.
    right; apply (H' l t ts2 E2 a b Et Ha Hb).
Qed.

(** A directory followed by the trails below it, each extended by it. *)
Lemma ancestors_first_below d ts :
  ancestors_first ts -> ancestors_first ([d] :: map (cons d) ts).
Proof.
  intros H ts1 t ts2 E a b Et Ha Hb.
  destruct ts1 as [|x ts1].
  - injection E as <- _.
    destruct a as [|x a]; [congruence|].
    destruct a; destruct b; try discriminate; congruence.
  - injection E as <- E.
    apply map_eq_app in E.
    destruct E as (s1 & s2' & -> & <- & E).
    destruct s2' as [|t0 s2]; [discriminate|].
    injection E as <- _.
    destruct a as [|x a]; [congruence|].
    injection Et as <- Et.
    destruct a as [|y a].
    + left; reflexivity.
    + right; apply in_map.
      apply (H s1 t0 s2 eq_refl (y :: a) b Et); [discriminate | exact Hb].
Qed.

(* ------------------------------------------------------------------ *)
(** ** The tree walker *)

Section WalkerProperties.

Variable path : NodePath.

(** The loop body of [walkDir], as it is written: [continue] on a skipped
    or hidden directory; otherwise, for a directory, [yield entry] and then
    [yield* walkDir(entry)] with the default empty [skipDir]. *)
Lemma walkDir_step_eq dir S d :
  walkDir_step path dir S d =
  if isDirectory d && (map_has S (name d) || startsWith (name d) ".")
  then gen_done
  else if isDirectory d
       then gen_seq (gen_yield (join path dir (name d)))
                    (walkDir path (join path dir (name d)) [] (opendir d))
       else gen_done.
Proof.
  destruct d as [n|n|n listing|n err]; simpl;
    try destruct (map_has S n || startsWith n "."); reflexivity.
Qed.

(** The loop body of [walkFiles], as it is written. *)
Lemma walkFiles_step_eq dir S d :
  walkFiles_step path dir S d =
  if isDirectory d && (map_has S (name d) || startsWith (name d) ".")
  then gen_done
  else if isDirectory d
       then walkFiles path (join path dir (name d)) [] (opendir d)
       else if isFile d then gen_yield (join path dir (name d))
            else gen_done.
Proof.
  destruct d as [n|n|n listing|n err]; simpl;
    try destruct (map_has S n || startsWith n "."); reflexivity.
Qed.

(** A directory that is hidden or named in [skipDir] adds nothing to
    either walk: nothing is yielded, it is not opened and it cannot make the
    walk fail, whatever it contains. *)
Lemma step_pruned dir S d :
  isDirectory d = true ->
  map_has S (name d) = true \/ startsWith (name d) "." = true ->
  walkDir_step path dir S d = gen_done /\
  walkFiles_step path dir S d = gen_done.
Proof.
  intros Hd Hc.
  assert (C : map_has S (name d) || startsWith (name d) "." = true)
    by (apply orb_true_iff; exact Hc).
  rewrite walkDir_step_eq, walkFiles_step_eq, Hd, C; split; reflexivity.
Qed.

(** An entry that is not a directory named in [skipDir] is treated as by
    a walk without [skipDir]. *)
Lemma step_kept dir S d :
  isDirectory d && map_has S (name d) = false ->
  walkDir_step path dir S d = walkDir_step path dir [] d /\
  walkFiles_step path dir S d = walkFiles_step path dir [] d.
Proof.
  intros H; rewrite !walkDir_step_eq, !walkFiles_step_eq, map_has_nil.
  destruct (isDirectory d); [|split; reflexivity].
  simpl in H; rewrite H; split; reflexivity.
Qed.

(** Every yield of one turn of [walkDir]'s loop is the path of a trail of
    visible directories starting at the turn's entry, and ancestors come
    first. *)
Lemma walkDir_step_trails d :
  forall dir S,
  exists ts,
    yields (walkDir_step path dir S d) = map (trail_path path dir) ts /\
    Forall (fun t => dir_trail [d] t /\ top_kept S t) ts /\
    ancestors_first ts.
Proof.
  induction d as [n|n|n listing IH|n err] using Dirent_nested_ind;
    intros dir S.
  - exists []; repeat split; [constructor | apply ancestors_first_nil].
  - exists []; repeat split; [constructor | apply ancestors_first_nil].
  - destruct (map_has S n || startsWith n ".") eqn:C.
    + exists []; simpl; rewrite C.
      repeat split; [constructor | apply ancestors_first_nil].
    + apply orb_false_iff in C as C'; destruct C' as [C1 C2].
      destruct (for_await_explained
                  (walkDir_step path (join path dir n) [])
                  (trail_path path (join path dir n))
                  (dir_trail listing) ancestors_first listing
                  ancestors_first_nil ancestors_first_app)
        as (ts & Hy & HQ & HR).
      { intros c Hc; rewrite Forall_forall in IH.
        destruct (IH c Hc (join path dir n) []) as (tsc & Hyc & HQc & HRc).
        exists tsc; split; [exact Hyc | split; [|exact HRc]].
        eapply Forall_impl; [|exact HQc].
        intros t [[Ht Hv] _]; split; [|exact Hv].
        apply Trail_weaken with [c]; [exact Ht|].
        intros x [<-|[]]; exact Hc. }
      exists ([DDir n listing] :: map (cons (DDir n listing)) ts).
      split; [|split].
      * simpl; rewrite C; unfold gen_seq; simpl.
        rewrite Hy, map_map; reflexivity.
      * constructor.
        { split; [split|intros _; exact C1].
          - constructor; left; reflexivity.
          - repeat constructor; exact C2. }
        apply Forall_map; eapply Forall_impl; [|exact HQ].
        intros t [Ht Hv]; split; [split|intros _; exact C1].
        -- apply Trail_step; [left; reflexivity | exact Ht].
        -- constructor; [split; [reflexivity | exact C2] | exact Hv].
      * apply ancestors_first_below; exact HR.
  - destruct (map_has S n || startsWith n ".") eqn:C.
    + exists []; simpl; rewrite C.
      repeat split; [constructor | apply ancestors_first_nil].
    + apply orb_false_iff in C as C'; destruct C' as [C1 C2].
      exists ([DDenied n err] :: map (cons (DDenied n err)) []).
      split; [|split].
      * simpl; rewrite C; reflexivity.
      * constructor; [|constructor].
        split; [split|intros _; exact C1].
        -- constructor; left; reflexivity.
        -- repeat constructor; exact C2.
      * apply ancestors_first_below, ancestors_first_nil.
Qed.

(** Every yield of one turn of [walkFiles]'s loop is the path of a trail
    ending at a regular file and passing through visible directories
    only. *)
Lemma walkFiles_step_trails d :
  forall dir S,
  exists ts,
    yields (walkFiles_step path dir S d) = map (trail_path path dir) ts /\
    Forall (fun t => file_trail [d] t /\ top_kept S t) ts.
Proof.
  induction d as [n|n|n listing IH|n err] using Dirent_nested_ind;
    intros dir S.
  - exists [[DFile n]]; split; [reflexivity|].
    constructor; [|constructor].
    split; [split|intros [=]].
    + constructor; left; reflexivity.
    + exists [], (DFile n); repeat split; constructor.
  - exists []; split; [reflexivity | constructor].
  - destruct (map_has S n || startsWith n ".") eqn:C.
    + exists []; simpl; rewrite C; split; [reflexivity | constructor].
    + apply orb_false_iff in C as C'; destruct C' as [C1 C2].
      destruct (for_await_explained
                  (walkFiles_step path (join path dir n) [])
                  (trail_path path (join path dir n))
                  (file_trail listing) (fun _ => True) listing
                  I (fun _ _ _ _ => I))
        as (ts & Hy & HQ & _).
      { intros c Hc; rewrite Forall_forall in IH.
        destruct (IH c Hc (join path dir n) []) as (tsc & Hyc & HQc).
        exists tsc; split; [exact Hyc | split; [|exact I]].
        eapply Forall_impl; [|exact HQc].
        intros t [[Ht Hv] _]; split; [|exact Hv].
        apply Trail_weaken with [c]; [exact Ht|].
        intros x [<-|[]]; exact Hc. }
      exists (map (cons (DDir n listing)) ts); split.
      * simpl; rewrite C, Hy, map_map; reflexivity.
      * apply Forall_map; eapply Forall_impl; [|exact HQ].
        intros t [Ht (ds & f & -> & Hds & Hf)].
        split; [split|intros _; exact C1].
        -- apply Trail_step; [left; reflexivity | exact Ht].
        -- exists (DDir n listing :: ds), f; repeat split; [|exact Hf].
           constructor; [split; [reflexivity | exact C2] | exact Hds].
  - exists []; split; [|constructor].
    simpl; destruct (map_has S n || startsWith n "."); reflexivity.
Qed.

(** Every yield of [walkDir] is the path of a trail of visible directories
    that does not start at a directory named in [skipDir]; ancestors come
    first. *)
Lemma walkDir_trails dir S h :
  exists ts,
    yields (walkDir path dir S h) = map (trail_path path dir) ts /\
    Forall (fun t => dir_trail (entries h) t /\ top_kept S t) ts /\
    ancestors_first ts.
Proof.
  destruct h as [listing|err].
  - apply for_await_explained;
      [apply ancestors_first_nil | apply ancestors_first_app |].
    intros d Hd.
    destruct (walkDir_step_trails d dir S) as (ts & Hy & HQ & HR).
    exists ts; split; [exact Hy | split; [|exact HR]].
    eapply Forall_impl; [|exact HQ].
    intros t [[Ht Hv] Hk]; split; [split|]; auto.
    apply Trail_weaken with [d]; [exact Ht|].
    intros x [<-|[]]; exact Hd.
  - exists []; repeat split; [constructor | apply ancestors_first_nil].
Qed.

(** Every yield of [walkFiles] is the path of a trail to a regular file
    through visible directories, not starting at a directory named in
    [skipDir]. *)
Lemma walkFiles_trails dir S h :
  exists ts,
    yields (walkFiles path dir S h) = map (trail_path path dir) ts /\
    Forall (fun t => file_trail (entries h) t /\ top_kept S t) ts.
Proof.
  destruct h as [listing|err].
  - destruct (for_await_explained
                (walkFiles_step path dir S) (trail_path path dir)
                (fun t => file_trail listing t /\ top_kept S t)
                (fun _ => True) listing I (fun _ _ _ _ => I))
      as (ts & Hy & HQ & _); [|exists ts; auto].
    intros d Hd.
    destruct (walkFiles_step_trails d dir S) as (ts & Hy & HQ).
    exists ts; split; [exact Hy | split; [|exact I]].
    eapply Forall_impl; [|exact HQ].
    intros t [[Ht Hv] Hk]; split; [split|]; auto.
    apply Trail_weaken with [d]; [exact Ht|].
    intros x [<-|[]]; exact Hd.
  - exists []; split; [reflexivity | constructor].
Qed.

(** In a walk that completes, the directory at the end of every trail of
    visible directories is yielded, provided the trail does not start at a
    directory named in [skipDir]. *)
Lemma walkDir_reaches listing t :
  Trail listing t -> Forall visible_dir t ->
  forall dir S, top_kept S t ->
  completion (walkDir path dir S (Opened listing)) = Done ->
  In (trail_path path dir t) (yields (walkDir path dir S (Opened listing))).
Proof.
  induction 1 as [listing d Hd | listing n sub t Hd Ht IH];
    intros Hv dir S Hk Hdone;
    destruct (for_await_done _ _ _ Hdone Hd) as [Hstep Hincl];
    apply Hincl; clear Hincl;
    inversion Hv as [|x l [Hx1 Hx2] Hv' E]; subst;
    rewrite walkDir_step_eq in Hstep |- *; rewrite Hx1 in Hstep |- *;
    rewrite (Hk Hx1), Hx2 in Hstep |- *; simpl in Hstep |- *.
  - left; reflexivity.
  - right; apply IH; [exact Hv' | | exact Hstep].
    destruct t as [|x t']; [exact I | intros _; apply map_has_nil].
Qed.

(** In a walk that completes, the regular file at the end of every trail
    through visible directories is yielded, provided the trail does not
    start at a directory named in [skipDir]. *)
Lemma walkFiles_reaches listing t :
  Trail listing t ->
  forall ds f, t = ds ++ [f] -> Forall visible_dir ds -> isFile f = true ->
  forall dir S, top_kept S t ->
  completion (walkFiles path dir S (Opened listing)) = Done ->
  In (trail_path path dir t) (yields (walkFiles path dir S (Opened listing))).
Proof.
  induction 1 as [listing d Hd | listing n sub t Hd Ht IH];
    intros ds f E Hv Hf dir S Hk Hdone;
    destruct (for_await_done _ _ _ Hdone Hd) as [Hstep Hincl];
    apply Hincl; clear Hincl.
  - destruct ds as [|x ds]; [|destruct ds; discriminate].
    injection E as ->.
    rewrite walkFiles_step_eq.
    destruct f; try discriminate; left; reflexivity.
  - destruct ds as [|x ds].
    { injection E as _ E; subst t; inversion Ht. }
    injection E as <- E.
    inversion Hv as [|x l [Hx1 Hx2] Hv' E']; subst.
    rewrite walkFiles_step_eq in Hstep |- *; rewrite Hx1 in Hstep |- *.
    rewrite (Hk Hx1), Hx2 in Hstep |- *; simpl in Hstep |- *.
    apply (IH ds f eq_refl Hv' Hf); [|exact Hstep].
    destruct (ds ++ [f]) as [|y t']; [exact I | intros _; apply map_has_nil].
Qed.

(** [skipDir] acts as if the directories it names were absent from the
    listing of the walked directory, and from that listing only. *)
Lemma walk_without_skipped dir S listing :
  walkDir path dir S (Opened listing)
  = walkDir path dir [] (Opened (without_skipped S listing)) /\
  walkFiles path dir S (Opened listing)
  = walkFiles path dir [] (Opened (without_skipped S listing)).
Proof.
  simpl; induction listing as [|d listing [IHd IHf]]; [split; reflexivity|].
  simpl.
  destruct (isDirectory d && map_has S (name d)) eqn:C; simpl.
  - apply andb_true_iff in C as [C1 C2].
    destruct (step_pruned dir S d C1 (or_introl C2)) as [-> ->].
    rewrite !gen_seq_done_l; auto.
  - destruct (step_kept dir S d C) as [-> ->].
    rewrite IHd, IHf; split; reflexivity.
Qed.

(** A tree in which every directory can be opened is walked to the end. *)
Lemma walk_readable_completes d :
  readable d = true ->
  forall dir S,
    completion (walkDir_step path dir S d) = Done /\
    completion (walkFiles_step path dir S d) = Done.
Proof.
  induction d as [n|n|n listing IH|n err] using Dirent_nested_ind;
    intros Hr dir S; try (split; reflexivity); [|discriminate].
  simpl; destruct (map_has S n || startsWith n "."); [split; reflexivity|].
  simpl in Hr; rewrite forallb_forall in Hr; rewrite Forall_forall in IH.
  unfold gen_seq; simpl.
  generalize (join path dir n); intros entry.
  induction listing as [|c listing IHl]; [split; reflexivity|].
  simpl; unfold gen_seq.
  destruct (IH c (or_introl eq_refl) (Hr c (or_introl eq_refl)) entry [])
    as [-> ->]; simpl.
  apply IHl; intros x Hx; [apply IH | apply Hr]; right; exact Hx.
Qed.

(** A tree in which every directory can be opened is walked to the end in
    both modes. *)
Lemma walk_readable_tree_completes dir S listing :
  forallb readable listing = true ->
  completion (walkDir path dir S (Opened listing)) = Done /\
  completion (walkFiles path dir S (Opened listing)) = Done.
Proof.
  simpl; induction listing as [|d listing IH]; [split; reflexivity|].
  simpl; intros H; apply andb_true_iff in H as [Hd Hl].
  destruct (walk_readable_completes d Hd dir S) as [Ed Ef].
  destruct (IH Hl) as [IHd IHf].
  unfold gen_seq; rewrite Ed, Ef; split; assumption.
Qed.

End WalkerProperties.

(* ------------------------------------------------------------------ *)
(** ** The tree walker: hidden entries, [skipDir] and order *)

(** C6 (as amended).  Hidden directories are pruned in both modes: the loop
    turn on a directory whose name starts with a dot does nothing at all, so
    such a directory is neither yielded nor opened, at any depth.  Hence every
    path yielded by [walkDir] is that of a directory reached through
    directories none of whose names, its own included, starts with a dot, and
    every path yielded by [walkFiles] is that of a regular file reached
    through such directories.  Regular files are not filtered by name: in a
    walk that runs to completion, [walkFiles] yields every regular file,
    whatever its name, that is reached through directories whose names do not
    start with a dot, from a child that is not a directory named in
    [skipDir]. *)
Theorem walkers_prune_hidden_directories path dir S h :
  (forall d dir',
     isDirectory d = true -> startsWith (name d) "." = true ->
     walkDir_step path dir' S d = gen_done /\
     walkFiles_step path dir' S d = gen_done) /\
  (exists ts,
     yields (walkDir path dir S h) = map (trail_path path dir) ts /\
     Forall (dir_trail (entries h)) ts) /\
  (exists ts,
     yields (walkFiles path dir S h) = map (trail_path path dir) ts /\
     Forall (file_trail (entries h)) ts) /\
  (forall t,
     file_trail (entries h) t -> top_kept S t ->
     completion (walkFiles path dir S h) = Done ->
     In (trail_path path dir t) (yields (walkFiles path dir S h))).
Proof.
  split; [|split; [|split]].
  - intros d dir' Hd Hn; apply step_pruned; auto.
  - destruct (walkDir_trails path dir S h) as (ts & Hy & HQ & _).
    exists ts; split; [exact Hy|].
    eapply Forall_impl; [|exact HQ]; intros t [Ht _]; exact Ht.
  - destruct (walkFiles_trails path dir S h) as (ts & Hy & HQ).
    exists ts; split; [exact Hy|].
    eapply Forall_impl; [|exact HQ]; intros t [Ht _]; exact Ht.
  - intros t [Ht (ds & f & E & Hv & Hf)] Hk Hdone.
    destruct h as [listing|err];
      [|cbn in Ht; inversion Ht as [l d Hin | l n sub t' Hin]; destruct Hin].
    apply (walkFiles_reaches path listing t Ht ds f E Hv Hf dir S Hk Hdone).
Qed.

Lemma walkers_prune_hidden_directories_witness :
  let git := DDir ".git" [DFile "config"; DDir "hooks" []] in
  let tree := Opened [DFile ".babelrc"; git; DDir "src" [DFile ".eslintrc"]] in
  (walkDir_step (posix "/") "/proj" [] git = gen_done /\
   walkFiles_step (posix "/") "/proj" [] git = gen_done) /\
  In "/proj/.babelrc" (yields (walkFiles (posix "/") "/proj" [] tree)) /\
  In "/proj/src/.eslintrc" (yields (walkFiles (posix "/") "/proj" [] tree)).
Proof.
  intros git tree.
  destruct (walkers_prune_hidden_directories (posix "/") "/proj" [] tree)
    as (Hpruned & _ & _ & Hfiles).
  split; [|split].
  - apply Hpruned; reflexivity.
  - apply (Hfiles [DFile ".babelrc"]); [|intros [=]|reflexivity].
    split; [apply Trail_last; left; reflexivity|].
    exists [], (DFile ".babelrc").
    split; [reflexivity | split; [constructor | reflexivity]].
  - apply (Hfiles [DDir "src" [DFile ".eslintrc"]; DFile ".eslintrc"]);
      [|intros _; reflexivity|reflexivity].
    split.
    + apply Trail_step; [right; right; left; reflexivity|].
      apply Trail_last; left; reflexivity.
    + exists [DDir "src" [DFile ".eslintrc"]], (DFile ".eslintrc").
      split; [reflexivity | split; [|reflexivity]].
      repeat constructor.
Defined.

(** C6 (as stated) fails: [walkFiles] yields the regular file [.babelrc],
    an entry whose name starts with a dot. *)
Lemma walkFiles_yields_dot_file :
  let tree := Opened [DFile ".babelrc"; DDir ".git" [DFile "config"]] in
  yields (walkFiles (posix "/") "/proj" [] tree) = ["/proj/.babelrc"] /\
  ~ (forall p,
       In p (yields (walkFiles (posix "/") "/proj" [] tree)) ->
       startsWith (basename (posix "/") p) "." = false).
Proof.
  intros tree; split; [reflexivity|].
  intros H; specialize (H "/proj/.babelrc" (or_introl eq_refl)).
  discriminate H.
Qed.

(** [hasBabelConfig] relies on hidden files being yielded: [.babelrc] is the
    first name of its table. *)
Example hasBabelConfig_finds_babelrc :
  hasBabelConfig (posix "/") "/proj" []
                 (Opened [DFile ".babelrc"; DDir ".git" [DFile "config"]])
  = Returned true.
Proof. reflexivity. Qed.

(** C8.  [skipDir] prunes the children of the walked directory and nothing
    deeper.  A walk with [skipDir] is the walk without it of the listing from
    which the directories named in [skipDir] have been removed, so such a
    child is neither yielded nor opened; no yielded path has a trail starting
    at such a child.  Below the first level the names in [skipDir] play no
    part: in a walk that completes, every directory (and, for [walkFiles],
    every regular file) reached through visible directories from a child that
    is not named in [skipDir] is yielded, whether or not names of [skipDir]
    occur further down its trail. *)
Theorem walkers_skipDir_immediate_level path dir S listing :
  (walkDir path dir S (Opened listing)
   = walkDir path dir [] (Opened (without_skipped S listing)) /\
   walkFiles path dir S (Opened listing)
   = walkFiles path dir [] (Opened (without_skipped S listing))) /\
  (exists ts,
     yields (walkDir path dir S (Opened listing)) = map (trail_path path dir) ts /\
     Forall (fun t => dir_trail listing t /\ top_kept S t) ts) /\
  (exists ts,
     yields (walkFiles path dir S (Opened listing)) = map (trail_path path dir) ts /\
     Forall (fun t => file_trail listing t /\ top_kept S t) ts) /\
  (forall t,
     dir_trail listing t -> top_kept S t ->
     completion (walkDir path dir S (Opened listing)) = Done ->
     In (trail_path path dir t) (yields (walkDir path dir S (Opened listing)))) /\
  (forall t,
     file_trail listing t -> top_kept S t ->
     completion (walkFiles path dir S (Opened listing)) = Done ->
     In (trail_path path dir t) (yields (walkFiles path dir S (Opened listing)))).
Proof.
  split; [apply walk_without_skipped|].
  split; [|split; [|split]].
  - destruct (walkDir_trails path dir S (Opened listing)) as (ts & Hy & HQ & _).
    exists ts; auto.
  - apply (walkFiles_trails path dir S (Opened listing)).
  - intros t [Ht Hv] Hk Hdone; apply walkDir_reaches; assumption.
  - intros t [Ht (ds & f & E & Hv & Hf)] Hk Hdone.
    apply (walkFiles_reaches path listing t Ht ds f E Hv Hf); assumption.
Qed.

Lemma walkers_skipDir_immediate_level_witness :
  let deep := DDir "node_modules" [DFile "index.js"] in
  let src := DDir "src" [deep] in
  let listing := [DDir "node_modules" [DDir "top" []]; src] in
  In "/proj/src/node_modules"
     (yields (walkDir (posix "/") "/proj" ["node_modules"] (Opened listing))) /\
  In "/proj/src/node_modules/index.js"
     (yields (walkFiles (posix "/") "/proj" ["node_modules"] (Opened listing))).
Proof.
  intros deep src listing.
  destruct (walkers_skipDir_immediate_level
              (posix "/") "/proj" ["node_modules"] listing)
    as (_ & _ & _ & Hdirs & Hfiles).
  assert (Hsrc : In src listing) by (right; left; reflexivity).
  assert (Hvis : Forall visible_dir [src; deep])
    by (repeat constructor).
  split.
  - apply (Hdirs [src; deep]).
    + split; [|exact Hvis].
      apply Trail_step; [exact Hsrc|].
      apply Trail_last; left; reflexivity.
    + intros _; reflexivity.
    + reflexivity.
  - apply (Hfiles [src; deep; DFile "index.js"]).
    + split.
      * apply Trail_step; [exact Hsrc|].
        apply Trail_step; [left; reflexivity|].
        apply Trail_last; left; reflexivity.
      * exists [src; deep], (DFile "index.js").
        split; [reflexivity | split; [exact Hvis | reflexivity]].
    + intros _; reflexivity.
    + reflexivity.
Defined.

Example walkDir_skipDir_example :
  walkDir (posix "/") "/proj" ["node_modules"]
          (Opened [DDir "node_modules" [DDir "top" []];
                   DDir "src" [DDir "node_modules" [DFile "index.js"]]])
  = {| yields := ["/proj/src"; "/proj/src/node_modules"]; completion := Done |}.
Proof. reflexivity. Qed.

(** A pruned directory is not opened: one that cannot be opened does not
    make the walk fail when it is hidden or named in [skipDir]. *)
Example walkDir_pruned_not_opened :
  walkDir (posix "/") "/proj" ["private"]
          (Opened [DDenied "private" "EACCES"; DDenied ".cache" "EACCES";
                   DDir "src" []])
  = {| yields := ["/proj/src"]; completion := Done |}.
Proof. reflexivity. Qed.

(** A directory that cannot be opened is yielded, then the walk fails and
    nothing after it is visited. *)
Example walkDir_failure_aborts :
  walkDir (posix "/") "/proj" []
          (Opened [DDir "a" []; DDenied "private" "EACCES"; DDir "z" []])
  = {| yields := ["/proj/a"; "/proj/private"]; completion := Failed "EACCES" |}.
Proof. reflexivity. Qed.

(** C10.  In the sequence yielded by [walkDir], every path is that of a
    directory all of whose ancestors below the walked directory have been
    yielded strictly before it: cutting the sequence at any yielded path [p],
    the path of every proper ancestor of [p] lies in the part before [p]. *)
Theorem walkDir_parent_first path dir S h before p after :
  yields (walkDir path dir S h) = before ++ p :: after ->
  exists t,
    dir_trail (entries h) t /\
    p = trail_path path dir t /\
    forall a b, t = a ++ b -> a <> [] -> b <> [] ->
                In (trail_path path dir a) before.
Proof.
  intros H.
  destruct (walkDir_trails path dir S h) as (ts & Hy & HQ & HR).
  rewrite Hy in H; apply map_eq_app in H.
  destruct H as (ts1 & ts2' & -> & <- & H).
  destruct ts2' as [|t ts2]; [discriminate|].
  injection H as <- _.
  exists t; split; [|split; [reflexivity|]].
  - rewrite Forall_forall in HQ.
    apply HQ, in_or_app; right; left; reflexivity.
  - intros a b Et Ha Hb; apply in_map.
    apply (HR ts1 t ts2 eq_refl a b Et Ha Hb).
Qed.

Lemma walkDir_parent_first_witness :
  let tree :=
    Opened [DDir "src" [DDir "lib" [DDir "util" []]; DFile "a.js"];
            DDir "test" []] in
  yields (walkDir (posix "/") "/proj" [] tree)
  = ["/proj/src"; "/proj/src/lib"] ++ "/proj/src/lib/util" :: ["/proj/test"] /\
  exists t,
    dir_trail (entries tree) t /\
    "/proj/src/lib/util" = trail_path (posix "/") "/proj" t /\
    forall a b, t = a ++ b -> a <> [] -> b <> [] ->
                In (trail_path (posix "/") "/proj" a)
                   ["/proj/src"; "/proj/src/lib"].
Proof.
  intros tree; split; [reflexivity|].
  apply (walkDir_parent_first (posix "/") "/proj" [] tree
           ["/proj/src"; "/proj/src/lib"] "/proj/src/lib/util" ["/proj/test"]).
  reflexivity.
Defined.

(* ================================================================== *)
(** * Further properties *)

(** ** The candidate resolver: what a result and a [null] mean *)

Section ResolverFurther.

Variable path : NodePath.
Variable global : Global.
Variable world : World.

(** Either no candidate exists, or there is a first one that does. *)
Lemma first_existing_split basePath stem exts :
  all_missing path world basePath stem exts \/
  exists pre ext post,
    exts = pre ++ ext :: post /\
    all_missing path world basePath stem pre /\
    existsSync world (candidate path basePath stem ext) = true.
Proof.
  induction exts as [|e exts IH]; [left; constructor|].
  destruct (existsSync world (candidate path basePath stem e)) eqn:E.
  - right; exists [], e, exts; repeat split; [constructor | exact E].
  - destruct IH as [IH|(pre & ext & post & -> & Hpre & Hext)].
    + left; constructor; assumption.
    + right; exists (e :: pre), ext, post; repeat split; [|exact Hext].
      constructor; assumption.
Qed.

(** X1.  A result of [openFiles] is always the object built for the first
    candidate that exists, loaded by [require] or, when [require] threw, by
    the dynamic import; a run that returns a result emits no warning.  In the
    synchronous class the data always comes from [require]. *)
Theorem openFiles_result_provenance basePath stem exts msg :
  (forall r,
     value (Async.openFiles path global world basePath stem exts msg)
     = Ok (Some r) ->
     exists pre ext post,
       exts = pre ++ ext :: post /\
       all_missing path world basePath stem pre /\
       existsSync world (candidate path basePath stem ext) = true /\
       r = async_result path global basePath stem ext (data r) /\
       (require world (candidate path basePath stem ext) = Returned (data r) \/
        exists err m,
          require world (candidate path basePath stem ext) = Thrown err /\
          import world (candidate path basePath stem ext) = Returned m /\
          data r = default m) /\
       filter is_warning
         (events (Async.openFiles path global world basePath stem exts msg)) = []) /\
  (forall r,
     value (Sync.openFiles path global world basePath stem exts msg)
     = Ok (Some r) ->
     exists pre ext post,
       exts = pre ++ ext :: post /\
       all_missing path world basePath stem pre /\
       existsSync world (candidate path basePath stem ext) = true /\
       r = sync_result path global basePath stem ext (data r) /\
       require world (candidate path basePath stem ext) = Returned (data r) /\
       filter is_warning
         (events (Sync.openFiles path global world basePath stem exts msg)) = []).
Proof.
  split; intros r;
    destruct (first_existing_split basePath stem exts)
      as [Hall|(pre & ext & post & -> & Hpre & Hext)].
  - rewrite <- (app_nil_r exts), async_openFiles_skip by exact Hall.
    discriminate.
  - rewrite async_openFiles_skip by exact Hpre.
    rewrite async_openFiles_cons; cbv zeta; rewrite Hext.
    unfold value, events; cbn [fst snd]; rewrite filter_app, probes_no_warning.
    destruct (require world (candidate path basePath stem ext)) as [d|err] eqn:R.
    + intros [= <-]; exists pre, ext, post; repeat split; auto.
    + destruct (import world (candidate path basePath stem ext)) as [m|e2] eqn:M;
        [|destruct err, e2; discriminate].
      intros [= <-]; exists pre, ext, post; repeat split; auto.
      right; exists err, m; auto.
  - rewrite <- (app_nil_r exts), sync_openFiles_skip by exact Hall.
    discriminate.
  - rewrite sync_openFiles_skip by exact Hpre.
    rewrite sync_openFiles_cons; cbv zeta; rewrite Hext.
    unfold value, events; cbn [fst snd]; rewrite filter_app, probes_no_warning.
    destruct (require world (candidate path basePath stem ext))
      as [d|[message|raised]] eqn:R; [|discriminate|discriminate].
    intros [= <-]; exists pre, ext, post; repeat split; auto.
Qed.

(** X2.  [openFiles] returns [null] in exactly two situations: no candidate
    exists, and then the run is one existence check per extension and no
    warning; or the first candidate that exists cannot be loaded, the values
    thrown by the loaders having messages that can be read, and then exactly
    one warning is emitted, whose text is that of [warning] for these
    messages. *)
Theorem openFiles_null_cases basePath stem exts msg :
  (value (Async.openFiles path global world basePath stem exts msg) = Ok None ->
   (all_missing path world basePath stem exts /\
    events (Async.openFiles path global world basePath stem exts msg)
    = probes path basePath stem exts) \/
   (exists pre ext post message messageESM,
      exts = pre ++ ext :: post /\
      all_missing path world basePath stem pre /\
      existsSync world (candidate path basePath stem ext) = true /\
      require world (candidate path basePath stem ext)
      = Thrown (Readable message) /\
      import world (candidate path basePath stem ext)
      = Thrown (Readable messageESM) /\
      filter is_warning
        (events (Async.openFiles path global world basePath stem exts msg))
      = [LogWarn (Async.warning path global msg message messageESM
                                (candidate path basePath stem ext))])) /\
  (value (Sync.openFiles path global world basePath stem exts msg) = Ok None ->
   (all_missing path world basePath stem exts /\
    events (Sync.openFiles path global world basePath stem exts msg)
    = probes path basePath stem exts) \/
   (exists pre ext post message,
      exts = pre ++ ext :: post /\
      all_missing path world basePath stem pre /\
      existsSync world (candidate path basePath stem ext) = true /\
      require world (candidate path basePath stem ext)
      = Thrown (Readable message) /\
      filter is_warning
        (events (Sync.openFiles path global world basePath stem exts msg))
      = [LogWarn (Sync.warning path global msg message
                               (candidate path basePath stem ext))])).
Proof.
  split;
    destruct (first_existing_split basePath stem exts)
      as [Hall|(pre & ext & post & -> & Hpre & Hext)].
  - intros _; left; split; [exact Hall|].
    rewrite <- (app_nil_r exts) at 1.
    rewrite async_openFiles_skip by exact Hall.
    apply app_nil_r.
  - rewrite async_openFiles_skip by exact Hpre.
    rewrite async_openFiles_cons; cbv zeta; rewrite Hext.
    unfold value, events.
    destruct (require world (candidate path basePath stem ext)) as [d|err] eqn:R;
      [discriminate|].
    destruct (import world (candidate path basePath stem ext)) as [m|e2] eqn:M;
      [discriminate|].
    destruct err as [message|raised], e2 as [messageESM|raisedESM];
      cbn [fst snd]; try discriminate.
    rewrite filter_app, probes_no_warning.
    intros _; right; exists pre, ext, post, message, messageESM.
    repeat split; auto.
  - intros _; left; split; [exact Hall|].
    rewrite <- (app_nil_r exts) at 1.
    rewrite sync_openFiles_skip by exact Hall.
    apply app_nil_r.
  - rewrite sync_openFiles_skip by exact Hpre.
    rewrite sync_openFiles_cons; cbv zeta; rewrite Hext.
    unfold value, events.
    destruct (require world (candidate path basePath stem ext))
      as [d|[message|raised]] eqn:R; cbn [fst snd]; try discriminate.
    rewrite filter_app, probes_no_warning.
    intros _; right; exists pre, ext, post, message; repeat split; auto.
Qed.

End ResolverFurther.

Section ResolverEffects.

Variable path : NodePath.
Variable global : Global.
Variable world : World.

Lemma probes_paths basePath stem exts e p :
  In e (probes path basePath stem exts) -> event_path e = Some p ->
  In p (map (candidate path basePath stem) exts).
Proof.
  unfold probes; rewrite in_map_iff; intros (x & <- & Hx) [= <-].
  apply in_map; exact Hx.
Qed.

Lemma openFiles_all_missing basePath stem exts msg :
  all_missing path world basePath stem exts ->
  Async.openFiles path global world basePath stem exts msg
  = (Ok None, probes path basePath stem exts) /\
  Sync.openFiles path global world basePath stem exts msg
  = (Ok None, probes path basePath stem exts).
Proof.
  intros Hall; rewrite <- (app_nil_r exts) at 1 3.
  rewrite async_openFiles_skip, sync_openFiles_skip by exact Hall.
  unfold value, events; cbn; rewrite app_nil_r; split; reflexivity.
Qed.

Lemma probes_length basePath stem exts :
  length (probes path basePath stem exts) = length exts.
Proof. apply length_map. Qed.

(** X3.  [openFiles] touches nothing but its candidates: every existence
    check and every load attempt of a run is on the path built from
    [basePath], [baseFileName] and one of the given extensions.  A run makes
    at most one existence check per extension, followed by at most two load
    attempts and one warning (one load attempt in the synchronous class),
    whether the call returns or raises. *)
Theorem openFiles_confined basePath stem exts msg :
  (forall e p,
     In e (events (Async.openFiles path global world basePath stem exts msg)) ->
     event_path e = Some p ->
     In p (map (candidate path basePath stem) exts)) /\
  length (events (Async.openFiles path global world basePath stem exts msg))
  <= length exts + 3 /\
  (forall e p,
     In e (events (Sync.openFiles path global world basePath stem exts msg)) ->
     event_path e = Some p ->
     In p (map (candidate path basePath stem) exts)) /\
  length (events (Sync.openFiles path global world basePath stem exts msg))
  <= length exts + 2.
Proof.
  destruct (first_existing_split path world basePath stem exts)
    as [Hall|(pre & ext & post & -> & Hpre & Hext)].
  - destruct (openFiles_all_missing basePath stem exts msg Hall) as [-> ->].
    unfold events; cbn [snd].
    repeat split; try apply probes_paths.
    all: rewrite probes_length; lia.
  - rewrite async_openFiles_skip, sync_openFiles_skip by exact Hpre.
    rewrite async_openFiles_cons, sync_openFiles_cons; cbv zeta; rewrite Hext.
    assert (Hin : In (candidate path basePath stem ext)
                     (map (candidate path basePath stem) (pre ++ ext :: post)))
      by (apply in_map, in_or_app; right; left; reflexivity).
    assert (Hpre' : forall e p,
               In e (probes path basePath stem pre) -> event_path e = Some p ->
               In p (map (candidate path basePath stem) (pre ++ ext :: post))).
    { intros e p He Hp; rewrite map_app; apply in_or_app; left.
      apply (probes_paths basePath stem pre e p He Hp). }
    unfold events; cbn [snd].
    destruct (require world (candidate path basePath stem ext))
      as [d|[message|raised]];
      [|destruct (import world (candidate path basePath stem ext))
          as [m|[messageESM|raisedESM]]
       |destruct (import world (candidate path basePath stem ext))
          as [m|[messageESM|raisedESM]]];
      cbn [snd]; rewrite !length_app, !probes_length; cbn [length];
      (split; [|split; [lia|split; [|lia]]]);
      intros e p He Hp; apply in_app_or in He; destruct He as [He|He];
      try (apply (Hpre' e p He Hp));
      simpl in He;
      repeat (destruct He as [<-|He]; [try (injection Hp as <-; exact Hin);
                                       try discriminate|]);
      try contradiction.
Qed.

(** X4.  The asynchronous [openFiles] extends the synchronous one: whenever
    the synchronous class returns a result, the asynchronous class performs
    the same events and returns the same object up to [relativePath], which it
    relativizes against the working root; with equal roots the two runs are
    equal.  The classes can only differ where [require] throws. *)
Theorem async_openFiles_extends_sync basePath stem exts msg r :
  value (Sync.openFiles path global world basePath stem exts msg) = Ok (Some r) ->
  (value (Async.openFiles path global world basePath stem exts msg)
   = Ok (Some {| absFilePath := absFilePath r;
                 baseFileName := baseFileName r;
                 extension := extension r;
                 fileName := fileName r;
                 relativePath :=
                   getRelativePath path (bundler_baseCWD global) (absFilePath r);
                 data := data r |}) /\
   events (Async.openFiles path global world basePath stem exts msg)
   = events (Sync.openFiles path global world basePath stem exts msg)) /\
  (bundler_baseCWD global = bundler_origCWD global ->
   Async.openFiles path global world basePath stem exts msg
   = Sync.openFiles path global world basePath stem exts msg).
Proof.
  destruct (first_existing_split path world basePath stem exts)
    as [Hall|(pre & ext & post & -> & Hpre & Hext)].
  - rewrite <- (app_nil_r exts), sync_openFiles_skip by exact Hall.
    discriminate.
  - rewrite async_openFiles_skip, sync_openFiles_skip by exact Hpre.
    rewrite async_openFiles_cons, sync_openFiles_cons; cbv zeta; rewrite Hext.
    destruct (require world (candidate path basePath stem ext))
      as [d|[message|raised]]; [|discriminate|discriminate].
    unfold value, events; cbn [fst snd]; intros [= <-].
    split; [split; reflexivity|].
    intros E; unfold async_result, sync_result; rewrite E; reflexivity.
Qed.

(** X5.  Extension lists compose: when some candidate of a first list
    exists, extensions appended after that list change nothing; when none
    exists, the run is the existence checks of the first list followed by the
    run on the appended list. *)
Theorem openFiles_app basePath stem exts more msg :
  (existsb (fun e => existsSync world (candidate path basePath stem e)) exts = true ->
   Async.openFiles path global world basePath stem (exts ++ more) msg
   = Async.openFiles path global world basePath stem exts msg /\
   Sync.openFiles path global world basePath stem (exts ++ more) msg
   = Sync.openFiles path global world basePath stem exts msg) /\
  (existsb (fun e => existsSync world (candidate path basePath stem e)) exts = false ->
   Async.openFiles path global world basePath stem (exts ++ more) msg
   = (value (Async.openFiles path global world basePath stem more msg),
      probes path basePath stem exts
      ++ events (Async.openFiles path global world basePath stem more msg)) /\
   Sync.openFiles path global world basePath stem (exts ++ more) msg
   = (value (Sync.openFiles path global world basePath stem more msg),
      probes path basePath stem exts
      ++ events (Sync.openFiles path global world basePath stem more msg))).
Proof.
  destruct (first_existing_split path world basePath stem exts)
    as [Hall|(pre & ext & post & -> & Hpre & Hext)]; split; intros H.
  - exfalso; apply existsb_exists in H; destruct H as (e & He & Hx).
    unfold all_missing in Hall; rewrite Forall_forall in Hall.
    rewrite (Hall e He) in Hx; discriminate.
  - split; [apply async_openFiles_skip | apply sync_openFiles_skip]; exact Hall.
  - rewrite <- !app_assoc; cbn [app].
    rewrite !async_openFiles_skip, !sync_openFiles_skip by exact Hpre.
    rewrite !async_openFiles_cons, !sync_openFiles_cons; cbv zeta; rewrite Hext.
    split; reflexivity.
  - exfalso; rewrite existsb_app in H; cbn [existsb] in H.
    rewrite Hext, orb_true_r in H; discriminate.
Qed.

(** X6.  The import fallback of [openFiles] is [esmLoader]: when [require]
    throws on the first existing candidate, a value returned by [esmLoader]
    for that file is the data of the result.  When [esmLoader] throws too, the
    call returns [null] if the messages of both caught values can be read,
    and raises what reading them throws otherwise. *)
Theorem openFiles_fallback_is_esmLoader basePath stem pre ext post msg err :
  all_missing path world basePath stem pre ->
  existsSync world (candidate path basePath stem ext) = true ->
  require world (candidate path basePath stem ext) = Thrown err ->
  value (Async.openFiles path global world basePath stem (pre ++ ext :: post) msg)
  = match value (esmLoader world (candidate path basePath stem ext)) with
    | Returned d => Ok (Some (async_result path global basePath stem ext d))
    | Thrown errESM =>
        match first_unreadable err errESM with
        | Some raised => Throw raised
        | None => Ok None
        end
    end.
Proof.
  intros Hpre Hext Hreq.
  rewrite async_openFiles_skip by exact Hpre.
  rewrite async_openFiles_cons; cbv zeta; rewrite Hext, Hreq.
  unfold esmLoader, try_import; rewrite bind_pair.
  destruct (import world (candidate path basePath stem ext)) as [m|errESM];
    [reflexivity|].
  destruct err, errESM; reflexivity.
Qed.

End ResolverEffects.

(* ------------------------------------------------------------------ *)
(** ** The dual-root resolver: warnings, fallback and [null] *)

Section DualRootFurther.

Variable path : NodePath.
Variable global : Global.
Variable world : World.

Lemma async_result_candidate basePath stem exts msg r :
  value (Async.openFiles path global world basePath stem exts msg) = Ok (Some r) ->
  exists ext, In ext exts /\ absFilePath r = candidate path basePath stem ext.
Proof.
  induction exts as [|e exts IH]; [discriminate|].
  rewrite async_openFiles_cons; cbv zeta.
  destruct (existsSync world (candidate path basePath stem e)).
  - destruct (require world (candidate path basePath stem e)) as [d|err].
    + intros [= <-]; exists e; split; [left|]; reflexivity.
    + destruct (import world (candidate path basePath stem e)) as [m|errESM].
      * intros [= <-]; exists e; split; [left|]; reflexivity.
      * destruct err, errESM; discriminate.
  - intros H; destruct (IH H) as (ext & Hin & E).
    exists ext; split; [right|]; assumption.
Qed.

Lemma sync_result_candidate basePath stem exts msg r :
  value (Sync.openFiles path global world basePath stem exts msg) = Ok (Some r) ->
  exists ext, In ext exts /\ absFilePath r = candidate path basePath stem ext.
Proof.
  induction exts as [|e exts IH]; [discriminate|].
  rewrite sync_openFiles_cons; cbv zeta.
  destruct (existsSync world (candidate path basePath stem e)).
  - destruct (require world (candidate path basePath stem e)) as [d|[m|raised]];
      [|discriminate|discriminate].
    intros [= <-]; exists e; split; [left|]; reflexivity.
  - intros H; destruct (IH H) as (ext & Hin & E).
    exists ext; split; [right|]; assumption.
Qed.

(** The value of [openLocalConfigs] in terms of the two [openFiles] runs. *)
Lemma async_openLocalConfigs_value stem exts msg :
  value (Async.openLocalConfigs path global world stem exts msg)
  = match value (Async.openFiles path global world (bundler_baseCWD global)
                                 stem exts msg) with
    | Ok (Some r) => Ok (Some r)
    | Ok None => value (Async.openFiles path global world (bundler_origCWD global)
                                        stem exts msg)
    | Throw raised => Throw raised
    end.
Proof.
  unfold Async.openLocalConfigs.
  destruct (strict_neq (bundler_baseCWD global) (bundler_origCWD global)) eqn:E.
  - rewrite (eff_eta (Async.openFiles _ _ _ (bundler_baseCWD global) _ _ _)),
      bind_pair.
    unfold value at 2; cbn [fst].
    destruct (value (Async.openFiles path global world _ stem exts msg))
      as [[r|]|raised]; reflexivity.
  - apply strict_neq_false in E; rewrite E.
    destruct (value (Async.openFiles path global world _ stem exts msg))
      as [[r|]|raised]; reflexivity.
Qed.

Lemma sync_openLocalConfigs_value stem exts msg :
  value (Sync.openLocalConfigs path global world stem exts msg)
  = match value (Sync.openFiles path global world (bundler_baseCWD global)
                                stem exts msg) with
    | Ok (Some r) => Ok (Some r)
    | Ok None => value (Sync.openFiles path global world (bundler_origCWD global)
                                       stem exts msg)
    | Throw raised => Throw raised
    end.
Proof.
  unfold Sync.openLocalConfigs.
  destruct (strict_neq (bundler_baseCWD global) (bundler_origCWD global)) eqn:E.
  - rewrite (eff_eta (Sync.openFiles _ _ _ (bundler_baseCWD global) _ _ _)),
      bind_pair.
    unfold value at 2; cbn [fst].
    destruct (value (Sync.openFiles path global world _ stem exts msg))
      as [[r|]|raised]; reflexivity.
  - apply strict_neq_false in E; rewrite E.
    destruct (value (Sync.openFiles path global world _ stem exts msg))
      as [[r|]|raised]; reflexivity.
Qed.

(** X7.  A configuration file of the working root that cannot be loaded does
    not hide the original root, as long as the messages of the caught values
    can be read: after the warning, [openLocalConfigs] goes on with the
    original root and returns what [openFiles] finds there.  (Inside one
    root, by contrast, a candidate that cannot be loaded ends the search.)
    When reading a message raises, [openLocalConfigs] raises the same error
    after the load attempts, logs nothing and never probes the original
    root. *)
Theorem openLocalConfigs_falls_back_after_warning stem pre ext post msg :
  bundler_baseCWD global <> bundler_origCWD global ->
  all_missing path world (bundler_baseCWD global) stem pre ->
  existsSync world (candidate path (bundler_baseCWD global) stem ext) = true ->
  (forall err errESM,
     require world (candidate path (bundler_baseCWD global) stem ext)
     = Thrown (Readable err) ->
     import world (candidate path (bundler_baseCWD global) stem ext)
     = Thrown (Readable errESM) ->
     Async.openLocalConfigs path global world stem (pre ++ ext :: post) msg
     = (value (Async.openFiles path global world (bundler_origCWD global)
                               stem (pre ++ ext :: post) msg),
        probes path (bundler_baseCWD global) stem pre
        ++ [FsExists (candidate path (bundler_baseCWD global) stem ext);
            Required (candidate path (bundler_baseCWD global) stem ext);
            Imported (candidate path (bundler_baseCWD global) stem ext);
            LogWarn (Async.warning path global msg err errESM
                       (candidate path (bundler_baseCWD global) stem ext))]
        ++ events (Async.openFiles path global world (bundler_origCWD global)
                                   stem (pre ++ ext :: post) msg))) /\
  (forall err,
     require world (candidate path (bundler_baseCWD global) stem ext)
     = Thrown (Readable err) ->
     Sync.openLocalConfigs path global world stem (pre ++ ext :: post) msg
     = (value (Sync.openFiles path global world (bundler_origCWD global)
                              stem (pre ++ ext :: post) msg),
        probes path (bundler_baseCWD global) stem pre
        ++ [FsExists (candidate path (bundler_baseCWD global) stem ext);
            Required (candidate path (bundler_baseCWD global) stem ext);
            LogWarn (Sync.warning path global msg err
                       (candidate path (bundler_baseCWD global) stem ext))]
        ++ events (Sync.openFiles path global world (bundler_origCWD global)
                                  stem (pre ++ ext :: post) msg))) /\
  (forall err errESM raised,
     require world (candidate path (bundler_baseCWD global) stem ext)
     = Thrown err ->
     import world (candidate path (bundler_baseCWD global) stem ext)
     = Thrown errESM ->
     first_unreadable err errESM = Some raised ->
     Async.openLocalConfigs path global world stem (pre ++ ext :: post) msg
     = (Throw raised,
        probes path (bundler_baseCWD global) stem pre
        ++ [FsExists (candidate path (bundler_baseCWD global) stem ext);
            Required (candidate path (bundler_baseCWD global) stem ext);
            Imported (candidate path (bundler_baseCWD global) stem ext)])) /\
  (forall raised,
     require world (candidate path (bundler_baseCWD global) stem ext)
     = Thrown (Unreadable raised) ->
     Sync.openLocalConfigs path global world stem (pre ++ ext :: post) msg
     = (Throw raised,
        probes path (bundler_baseCWD global) stem pre
        ++ [FsExists (candidate path (bundler_baseCWD global) stem ext);
            Required (candidate path (bundler_baseCWD global) stem ext)])).
Proof.
  intros Hne Hpre Hext; apply strict_neq_true in Hne; split; [|split; [|split]].
  - intros err errESM Hreq Himp; unfold Async.openLocalConfigs; rewrite Hne.
    rewrite (async_openFiles_skip path global world (bundler_baseCWD global))
      by exact Hpre.
    rewrite (async_openFiles_cons path global world (bundler_baseCWD global)).
    cbv zeta; rewrite Hext, Hreq, Himp.
    unfold value at 1, events at 1; cbn [fst snd].
    rewrite bind_pair, <- app_assoc; reflexivity.
  - intros err Hreq; unfold Sync.openLocalConfigs; rewrite Hne.
    rewrite (sync_openFiles_skip path global world (bundler_baseCWD global))
      by exact Hpre.
    rewrite (sync_openFiles_cons path global world (bundler_baseCWD global)).
    cbv zeta; rewrite Hext, Hreq.
    unfold value at 1, events at 1; cbn [fst snd].
    rewrite bind_pair, <- app_assoc; reflexivity.
  - intros err errESM raised Hreq Himp Hraised.
    unfold Async.openLocalConfigs; rewrite Hne.
    rewrite (async_openFiles_skip path global world (bundler_baseCWD global))
      by exact Hpre.
    rewrite (async_openFiles_cons path global world (bundler_baseCWD global)).
    cbv zeta; rewrite Hext, Hreq, Himp.
    destruct err as [message|r1], errESM as [messageESM|r2];
      cbn in Hraised; try discriminate; injection Hraised as <-;
      unfold value, events; cbn [fst snd];
      rewrite bind_pair; cbn [fst snd]; rewrite app_nil_r; reflexivity.
  - intros raised Hreq; unfold Sync.openLocalConfigs; rewrite Hne.
    rewrite (sync_openFiles_skip path global world (bundler_baseCWD global))
      by exact Hpre.
    rewrite (sync_openFiles_cons path global world (bundler_baseCWD global)).
    cbv zeta; rewrite Hext, Hreq.
    unfold value, events; cbn [fst snd].
    rewrite bind_pair; cbn [fst snd]; rewrite app_nil_r; reflexivity.
Qed.

(** X8.  [openLocalConfigs] returns [null] exactly when [openFiles] returns
    [null] on the working root and on the original root; a result it returns
    is a candidate of one of the two roots. *)
Theorem openLocalConfigs_null_iff stem exts msg :
  (value (Async.openLocalConfigs path global world stem exts msg) = Ok None <->
   value (Async.openFiles path global world (bundler_baseCWD global)
                          stem exts msg) = Ok None /\
   value (Async.openFiles path global world (bundler_origCWD global)
                          stem exts msg) = Ok None) /\
  (value (Sync.openLocalConfigs path global world stem exts msg) = Ok None <->
   value (Sync.openFiles path global world (bundler_baseCWD global)
                         stem exts msg) = Ok None /\
   value (Sync.openFiles path global world (bundler_origCWD global)
                         stem exts msg) = Ok None) /\
  (forall r,
     value (Async.openLocalConfigs path global world stem exts msg)
     = Ok (Some r) \/
     value (Sync.openLocalConfigs path global world stem exts msg)
     = Ok (Some r) ->
     exists ext,
       In ext exts /\
       (absFilePath r = candidate path (bundler_baseCWD global) stem ext \/
        absFilePath r = candidate path (bundler_origCWD global) stem ext)).
Proof.
  rewrite async_openLocalConfigs_value, sync_openLocalConfigs_value.
  split; [|split].
  - destruct (value (Async.openFiles path global world (bundler_baseCWD global)
                                     stem exts msg)) as [[r|]|raised];
      split; try tauto; try discriminate; intros [H _]; discriminate.
  - destruct (value (Sync.openFiles path global world (bundler_baseCWD global)
                                    stem exts msg)) as [[r|]|raised];
      split; try tauto; try discriminate; intros [H _]; discriminate.
  - intros r [H|H].
    + destruct (value (Async.openFiles path global world (bundler_baseCWD global)
                                       stem exts msg)) as [[r'|]|raised] eqn:E.
      * injection H as <-.
        destruct (async_result_candidate _ _ _ _ _ E) as (ext & Hin & Ha).
        exists ext; auto.
      * destruct (async_result_candidate _ _ _ _ _ H) as (ext & Hin & Ha).
        exists ext; auto.
      * discriminate.
    + destruct (value (Sync.openFiles path global world (bundler_baseCWD global)
                                      stem exts msg)) as [[r'|]|raised] eqn:E.
      * injection H as <-.
        destruct (sync_result_candidate _ _ _ _ _ E) as (ext & Hin & Ha).
        exists ext; auto.
      * destruct (sync_result_candidate _ _ _ _ _ H) as (ext & Hin & Ha).
        exists ext; auto.
      * discriminate.
Qed.

End DualRootFurther.

(* ------------------------------------------------------------------ *)
(** ** The tree walker: failures and composition *)

Lemma map_has_In (l : list string) (x : string) :
  map_has l x = true <-> In x l.
Proof.
  unfold map_has; rewrite existsb_exists; split.
  - intros (y & Hy & E); apply String.eqb_eq in E; subst; exact Hy.
  - intros H; exists x; split; [exact H | apply String.eqb_refl].
Qed.

Lemma completion_gen_seq (g1 g2 : Gen) :
  completion (gen_seq g1 g2)
  = match completion g1 with Done => completion g2 | Failed err => Failed err end.
Proof.
  unfold gen_seq; destruct (completion g1) eqn:E; [reflexivity | exact E].
Qed.

Lemma gen_seq_failed (g1 g2 : Gen) (err : string) :
  completion g1 = Failed err -> gen_seq g1 g2 = g1.
Proof. unfold gen_seq; intros ->; reflexivity. Qed.

Lemma gen_seq_assoc (g1 g2 g3 : Gen) :
  gen_seq (gen_seq g1 g2) g3 = gen_seq g1 (gen_seq g2 g3).
Proof.
  destruct g1 as [y1 [|e1]], g2 as [y2 [|e2]], g3 as [y3 c3];
    unfold gen_seq; simpl; rewrite ?app_assoc; reflexivity.
Qed.

(** A loop over a concatenation is the loop over the first part followed by
    the loop over the second. *)
Lemma for_await_app {A} (body : A -> Gen) (l1 l2 : list A) :
  for_await body (l1 ++ l2) = gen_seq (for_await body l1) (for_await body l2).
Proof.
  induction l1 as [|x l1 IH]; simpl.
  - symmetry; apply gen_seq_done_l.
  - rewrite IH; symmetry; apply gen_seq_assoc.
Qed.

Lemma for_await_ext {A} (f g : A -> Gen) (l : list A) :
  (forall d, In d l -> f d = g d) -> for_await f l = for_await g l.
Proof.
  induction l as [|x l IH]; intros H; [reflexivity|].
  simpl; rewrite (H x (or_introl eq_refl)), IH; [reflexivity|].
  intros d Hd; apply H; right; exact Hd.
Qed.

Lemma for_await_completion_ext {A} (f g : A -> Gen) (l : list A) :
  (forall d, In d l -> completion (f d) = completion (g d)) ->
  completion (for_await f l) = completion (for_await g l).
Proof.
  induction l as [|x l IH]; intros H; [reflexivity|].
  simpl; rewrite !completion_gen_seq, (H x (or_introl eq_refl)), IH;
    [reflexivity|].
  intros d Hd; apply H; right; exact Hd.
Qed.

Lemma for_await_completes {A} (body : A -> Gen) (l : list A) :
  completion (for_await body l) = Done <->
  forall d, In d l -> completion (body d) = Done.
Proof.
  split.
  - intros H d Hd; apply (for_await_done body l d H Hd).
  - induction l as [|x l IH]; intros H; [reflexivity|].
    simpl; rewrite completion_gen_seq, (H x (or_introl eq_refl)).
    apply IH; intros d Hd; apply H; right; exact Hd.
Qed.

Section WalkerFurther.

Variable path : NodePath.

(** One turn of the loop ends the same way in both modes. *)
Lemma step_modes_end_alike d :
  forall dir S,
    completion (walkDir_step path dir S d) = completion (walkFiles_step path dir S d).
Proof.
  induction d as [n|n|n listing IH|n err] using Dirent_nested_ind;
    intros dir S; try reflexivity.
  - simpl; destruct (map_has S n || startsWith n "."); [reflexivity|].
    rewrite completion_gen_seq; simpl.
    apply for_await_completion_ext.
    rewrite Forall_forall in IH; intros c Hc; apply IH; exact Hc.
  - simpl; destruct (map_has S n || startsWith n "."); reflexivity.
Qed.

(** One turn of the loop completes exactly when it opens no directory that
    rejects. *)
Lemma step_completes_iff d :
  forall dir S,
    completion (walkDir_step path dir S d) = Done <->
    (isDirectory d && map_has S (name d)) || openable d = true.
Proof.
  induction d as [n|n|n listing IH|n err] using Dirent_nested_ind;
    intros dir S; try (simpl; tauto).
  - simpl; destruct (map_has S n) eqn:C1; [simpl; tauto|].
    destruct (startsWith n ".") eqn:C2; [simpl; tauto|].
    cbn [orb]; rewrite completion_gen_seq; cbn [gen_yield completion].
    rewrite for_await_completes, forallb_forall.
    rewrite Forall_forall in IH.
    split; intros H c Hc.
    + apply (IH c Hc (join path dir n) []) in H; [|exact Hc].
      destruct (isDirectory c); exact H.
    + apply (IH c Hc (join path dir n) []).
      rewrite (H c Hc); apply orb_true_r.
  - simpl; destruct (map_has S n) eqn:C1; [simpl; tauto|].
    destruct (startsWith n ".") eqn:C2; simpl; [tauto|].
    split; discriminate.
Qed.

(** X9.  The two walkers end alike on the same tree: both run to the end,
    or both fail with the same error.  They complete exactly when every
    directory they open can be opened, that is every directory that is not
    hidden, not below a hidden directory, and not a child named in [skipDir]
    nor below one. *)
Theorem walkers_end_alike dir S h listing :
  completion (walkDir path dir S h) = completion (walkFiles path dir S h) /\
  (completion (walkDir path dir S (Opened listing)) = Done <->
   walk_openable S listing = true).
Proof.
  split.
  - destruct h as [l|err]; [|reflexivity].
    apply for_await_completion_ext; intros d _; apply step_modes_end_alike.
  - simpl.
    rewrite for_await_completes; unfold walk_openable; rewrite forallb_forall.
    split; intros H d Hd; apply (step_completes_iff d dir S), H, Hd.
Qed.

(** X10.  Entries are walked in listing order and a failure ends the walk:
    when the walk of a first part of a listing fails, whatever follows in the
    listing is not visited and the walk of the whole listing is the walk of
    that first part; when it completes, the walk of the whole listing yields
    its paths followed by those of the rest and ends as the rest does. *)
Theorem walk_listing_app dir S l1 l2 :
  (forall err,
     completion (walkDir path dir S (Opened l1)) = Failed err ->
     walkDir path dir S (Opened (l1 ++ l2)) = walkDir path dir S (Opened l1) /\
     walkFiles path dir S (Opened (l1 ++ l2)) = walkFiles path dir S (Opened l1)) /\
  (completion (walkDir path dir S (Opened l1)) = Done ->
   walkDir path dir S (Opened (l1 ++ l2))
   = {| yields := yields (walkDir path dir S (Opened l1))
                  ++ yields (walkDir path dir S (Opened l2));
        completion := completion (walkDir path dir S (Opened l2)) |} /\
   walkFiles path dir S (Opened (l1 ++ l2))
   = {| yields := yields (walkFiles path dir S (Opened l1))
                  ++ yields (walkFiles path dir S (Opened l2));
        completion := completion (walkFiles path dir S (Opened l2)) |}).
Proof.
  assert (E : completion (walkDir path dir S (Opened l1))
              = completion (walkFiles path dir S (Opened l1)))
    by (apply for_await_completion_ext; intros d _; apply step_modes_end_alike).
  simpl in *; rewrite !for_await_app; split.
  - intros err H; split; apply gen_seq_failed with err; congruence.
  - intros H; unfold gen_seq; rewrite <- E, H; split; reflexivity.
Qed.

(** X11.  [skipDir] is used as a set: two lists with the same members give
    the same walks, so order and repetitions in [skipDir] do not matter. *)
Theorem walk_skipDir_as_set dir S S' h :
  (forall x, In x S <-> In x S') ->
  walkDir path dir S h = walkDir path dir S' h /\
  walkFiles path dir S h = walkFiles path dir S' h.
Proof.
  intros H.
  assert (E : forall x, map_has S x = map_has S' x).
  { intros x; destruct (map_has S x) eqn:C.
    - symmetry; apply map_has_In, H, map_has_In, C.
    - destruct (map_has S' x) eqn:C'; [|reflexivity].
      apply map_has_In, H, map_has_In in C'; congruence. }
  destruct h as [listing|err]; [|split; reflexivity].
  split; apply for_await_ext; intros d _;
    rewrite ?walkDir_step_eq, ?walkFiles_step_eq, E; reflexivity.
Qed.

End WalkerFurther.

(* ------------------------------------------------------------------ *)
(** ** The listers and the configuration probes *)

Section ListerProbe.

Variable path : NodePath.

Lemma push_resolved_spec results ps :
  push_resolved path results ps = results ++ map (resolve path) ps.
Proof.
  unfold push_resolved; revert results.
  induction ps as [|p ps IH]; intros results; simpl.
  - symmetry; apply app_nil_r.
  - rewrite IH, <- app_assoc; reflexivity.
Qed.

Lemma walk_modes_completion dir S h :
  completion (walkDir path dir S h) = completion (walkFiles path dir S h).
Proof.
  destruct h as [listing|err]; [|reflexivity].
  apply for_await_completion_ext; intros d _; apply step_modes_end_alike.
Qed.

Lemma walk_completes_iff dir S listing :
  completion (walkDir path dir S (Opened listing)) = Done <->
  walk_openable S listing = true.
Proof.
  simpl; rewrite for_await_completes; unfold walk_openable.
  rewrite forallb_forall.
  split; intros H d Hd; apply (step_completes_iff path d dir S), H, Hd.
Qed.

(** X12.  What the listers add to [results] is sound and, when the promise
    resolves, complete.  Every path appended by [getDirList] is the resolved
    path of a directory reached through visible directories from a child not
    named in [skipDir], and every path appended by [getFileList] is the
    resolved path of a regular file reached that way; what [results] held
    before stays in front.  When the promise resolves, the array holds the
    resolved path of every such directory, respectively regular file. *)
Theorem listers_sound_complete dir S results listing :
  (exists ts,
     array (getDirList path dir S results (Opened listing))
     = results ++ map (fun t => resolve path (trail_path path dir t)) ts /\
     Forall (fun t => dir_trail listing t /\ top_kept S t) ts) /\
  (exists ts,
     array (getFileList path dir S results (Opened listing))
     = results ++ map (fun t => resolve path (trail_path path dir t)) ts /\
     Forall (fun t => file_trail listing t /\ top_kept S t) ts) /\
  (forall filled t,
     settled (getDirList path dir S results (Opened listing)) = Returned filled ->
     dir_trail listing t -> top_kept S t ->
     filled = array (getDirList path dir S results (Opened listing)) /\
     In (resolve path (trail_path path dir t)) filled) /\
  (forall filled t,
     settled (getFileList path dir S results (Opened listing)) = Returned filled ->
     file_trail listing t -> top_kept S t ->
     filled = array (getFileList path dir S results (Opened listing)) /\
     In (resolve path (trail_path path dir t)) filled).
Proof.
  unfold getDirList, getFileList, drain; cbn [array settled].
  rewrite !push_resolved_spec.
  split; [|split; [|split]].
  - destruct (walkDir_trails path dir S (Opened listing)) as (ts & Hy & HF & _).
    exists ts; rewrite Hy, map_map; split; [reflexivity | exact HF].
  - destruct (walkFiles_trails path dir S (Opened listing)) as (ts & Hy & HF).
    exists ts; rewrite Hy, map_map; split; [reflexivity | exact HF].
  - intros filled t Hs [Ht Hv] Hk.
    destruct (completion (walkDir path dir S (Opened listing))) as [|err] eqn:E;
      [|discriminate].
    injection Hs as <-; split; [reflexivity|].
    apply in_or_app; right; apply in_map.
    apply (walkDir_reaches path listing t Ht Hv dir S Hk E).
  - intros filled t Hs [Ht (ds & f & Et & Hv & Hf)] Hk.
    destruct (completion (walkFiles path dir S (Opened listing))) as [|err] eqn:E;
      [|discriminate].
    injection Hs as <-; split; [reflexivity|].
    apply in_or_app; right; apply in_map.
    apply (walkFiles_reaches path listing t Ht ds f Et Hv Hf dir S Hk E).
Qed.

(** X13.  The two listers settle alike.  On a tree where every directory
    the walk opens can be opened, both resolve, each with its filled array;
    otherwise both reject, with the same error. *)
Theorem listers_settle_alike dir S results results' listing :
  (walk_openable S listing = true ->
   settled (getDirList path dir S results (Opened listing))
   = Returned (array (getDirList path dir S results (Opened listing))) /\
   settled (getFileList path dir S results' (Opened listing))
   = Returned (array (getFileList path dir S results' (Opened listing)))) /\
  (walk_openable S listing = false ->
   exists err,
     settled (getDirList path dir S results (Opened listing)) = Thrown err /\
     settled (getFileList path dir S results' (Opened listing)) = Thrown err).
Proof.
  unfold getDirList, getFileList, drain; cbn [array settled].
  rewrite <- (walk_modes_completion dir S (Opened listing)).
  split; intros H.
  - apply (proj2 (walk_completes_iff dir S listing)) in H.
    rewrite H; split; reflexivity.
  - destruct (completion (walkDir path dir S (Opened listing))) as [|err] eqn:E.
    + apply (proj1 (walk_completes_iff dir S listing)) in E; congruence.
    + exists (Readable err); split; reflexivity.
Qed.

Lemma has_config_false table g :
  has_config path table g = Returned false ->
  completion g = Done /\
  forall p, In p (yields g) -> map_has table (basename path p) = false.
Proof.
  unfold has_config.
  destruct (existsb (fun p => map_has table (basename path p)) (yields g)) eqn:E;
    [discriminate|].
  destruct (completion g); [|discriminate].
  intros _; split; [reflexivity|].
  intros p Hp.
  destruct (map_has table (basename path p)) eqn:C; [|reflexivity].
  assert (X : existsb (fun p => map_has table (basename path p)) (yields g) = true)
    by (apply existsb_exists; exists p; auto).
  congruence.
Qed.

(** X14.  The answer [false] of a probe is sound: when [hasBabelConfig] or
    [hasTscConfig] returns [false], the walk has run to the end and no
    regular file reached through visible directories, from a child that is not
    a directory named in [skipDir], has a base name of the probe's table. *)
Theorem probes_false_sound dir S listing :
  (hasBabelConfig path dir S (Opened listing) = Returned false ->
   completion (walkFiles path dir S (Opened listing)) = Done /\
   forall t, file_trail listing t -> top_kept S t ->
     map_has s_BABEL_CONFIG (basename path (trail_path path dir t)) = false) /\
  (hasTscConfig path dir S (Opened listing) = Returned false ->
   completion (walkFiles path dir S (Opened listing)) = Done /\
   forall t, file_trail listing t -> top_kept S t ->
     map_has s_TSC_CONFIG (basename path (trail_path path dir t)) = false).
Proof.
  split; intros H; apply has_config_false in H; destruct H as [Hdone Hno];
    (split; [exact Hdone|]);
    intros t [Ht (ds & f & E & Hv & Hf)] Hk; apply Hno;
    apply (walkFiles_reaches path listing t Ht ds f E Hv Hf dir S Hk Hdone).
Qed.

Lemma walkFiles_upto_file dir S l1 n l2 :
  completion (walkFiles path dir S (Opened l1)) = Done ->
  yields (walkFiles path dir S (Opened (l1 ++ DFile n :: l2)))
  = yields (walkFiles path dir S (Opened l1))
    ++ join path dir n :: yields (walkFiles path dir S (Opened l2)).
Proof.
  simpl; intros H; rewrite for_await_app; unfold gen_seq at 1; rewrite H.
  reflexivity.
Qed.

(** X15.  A probe stops at the first match: when the walk of the entries
    before a regular file completes and the file's path has a base name of
    the probe's table, the probe returns [true] whatever follows the file in
    the listing, directories that cannot be opened included. *)
Theorem probes_stop_at_match dir S l1 n l2 :
  completion (walkFiles path dir S (Opened l1)) = Done ->
  (map_has s_BABEL_CONFIG (basename path (join path dir n)) = true ->
   hasBabelConfig path dir S (Opened (l1 ++ DFile n :: l2)) = Returned true) /\
  (map_has s_TSC_CONFIG (basename path (join path dir n)) = true ->
   hasTscConfig path dir S (Opened (l1 ++ DFile n :: l2)) = Returned true).
Proof.
  intros Hdone; split; intros Hn;
    unfold hasBabelConfig, hasTscConfig, has_config;
    rewrite (walkFiles_upto_file dir S l1 n l2 Hdone), existsb_app;
    cbn [existsb]; rewrite Hn, orb_true_r; reflexivity.
Qed.

End ListerProbe.

(* ------------------------------------------------------------------ *)
(** ** The classifier *)

(** X16.  No extension is both a JavaScript and a TypeScript extension, and
    an extension that does not begin with a dot is neither. *)
Theorem classifier_exclusive extension :
  isJS extension && isTS extension = false /\
  (startsWith extension "." = false ->
   isJS extension = false /\ isTS extension = false).
Proof.
  assert (J : isJS extension = true -> In extension s_EXT_JS)
    by apply map_has_In.
  assert (T : isTS extension = true -> In extension s_EXT_TS)
    by apply map_has_In.
  split.
  - destruct (isTS extension) eqn:E; [|apply andb_false_r].
    destruct (T eq_refl) as [<-|[<-|[]]]; reflexivity.
  - intros H; split.
    + destruct (isJS extension) eqn:E; [|reflexivity].
      destruct (J eq_refl) as [<-|[<-|[<-|[<-|[<-|[]]]]]]; discriminate H.
    + destruct (isTS extension) eqn:E; [|reflexivity].
      destruct (T eq_refl) as [<-|[<-|[]]]; discriminate H.
Qed.

(* ------------------------------------------------------------------ *)
(** ** The further properties on concrete worlds and trees *)

Lemma openFiles_result_provenance_witness :
  let global := mkGlobal "/proj" "/proj" in
  let world := single_file_world "/proj/config.js" (VString "cfg") in
  filter is_warning
    (events (Async.openFiles (posix "/") global world "/proj" "config"
                             [".json"; ".js"] "")) = [] /\
  filter is_warning
    (events (Sync.openFiles (posix "/") global world "/proj" "config"
                            [".json"; ".js"] "")) = [].
Proof.
  intros global world.
  destruct (openFiles_result_provenance (posix "/") global world
              "/proj" "config" [".json"; ".js"] "") as [HA HS].
  destruct (HA (async_result (posix "/") global "/proj" "config" ".js"
                             (VString "cfg")) eq_refl)
    as (pre & ext & post & _ & _ & _ & _ & _ & Hw).
  destruct (HS (sync_result (posix "/") global "/proj" "config" ".js"
                            (VString "cfg")) eq_refl)
    as (pre' & ext' & post' & _ & _ & _ & _ & _ & Hw').
  split; assumption.
Defined.

Lemma openFiles_null_cases_witness :
  let global := mkGlobal "/proj" "/proj" in
  let world := broken_file_world "/proj/config.js" "bad" "worse" in
  (exists w,
     filter is_warning
       (events (Async.openFiles (posix "/") global world "/proj" "config"
                                [".json"; ".js"] "")) = [LogWarn w]) /\
  (exists w,
     filter is_warning
       (events (Sync.openFiles (posix "/") global world "/proj" "config"
                               [".json"; ".js"] "")) = [LogWarn w]).
Proof.
  intros global world.
  destruct (openFiles_null_cases (posix "/") global world
              "/proj" "config" [".json"; ".js"] "") as [HA HS].
  split.
  - destruct (HA eq_refl) as [[Hall _]|(pre & ext & post & err & e2 & H)].
    + inversion Hall as [|x l _ Hl]; subst.
      inversion Hl as [|y l' Hy _]; subst; discriminate Hy.
    + destruct H as (_ & _ & _ & _ & _ & Hw); eexists; exact Hw.
  - destruct (HS eq_refl) as [[Hall _]|(pre & ext & post & err & H)].
    + inversion Hall as [|x l _ Hl]; subst.
      inversion Hl as [|y l' Hy _]; subst; discriminate Hy.
    + destruct H as (_ & _ & _ & _ & Hw); eexists; exact Hw.
Defined.

Lemma openFiles_confined_witness :
  let exts := [".json"; ".js"; ".cjs"] in
  In "/proj/config.js" (map (candidate (posix "/") "/proj" "config") exts) /\
  In "/proj/config.json" (map (candidate (posix "/") "/proj" "config") exts).
Proof.
  intros exts.
  destruct (openFiles_confined (posix "/") (mkGlobal "/proj" "/proj")
              (broken_file_world "/proj/config.js" "bad" "worse")
              "/proj" "config" exts "") as (HA & _ & HS & _).
  split.
  - apply (HA (Imported "/proj/config.js")); [|reflexivity].
    right; right; right; left; reflexivity.
  - apply (HS (FsExists "/proj/config.json")); [|reflexivity].
    left; reflexivity.
Defined.

Lemma async_openFiles_extends_sync_witness :
  let world := single_file_world "/orig/config.js" (VString "cfg") in
  events (Async.openFiles (posix "/") (mkGlobal "/work" "/orig") world
                          "/orig" "config" [".js"] "")
  = events (Sync.openFiles (posix "/") (mkGlobal "/work" "/orig") world
                           "/orig" "config" [".js"] "") /\
  Async.openFiles (posix "/") (mkGlobal "/orig" "/orig") world
                  "/orig" "config" [".js"] ""
  = Sync.openFiles (posix "/") (mkGlobal "/orig" "/orig") world
                   "/orig" "config" [".js"] "".
Proof.
  intros world; split.
  - apply (async_openFiles_extends_sync (posix "/") (mkGlobal "/work" "/orig")
             world "/orig" "config" [".js"] ""
             (sync_result (posix "/") (mkGlobal "/work" "/orig")
                          "/orig" "config" ".js" (VString "cfg")) eq_refl).
  - apply (async_openFiles_extends_sync (posix "/") (mkGlobal "/orig" "/orig")
             world "/orig" "config" [".js"] ""
             (sync_result (posix "/") (mkGlobal "/orig" "/orig")
                          "/orig" "config" ".js" (VString "cfg")) eq_refl).
    reflexivity.
Defined.

Lemma openFiles_app_witness :
  let global := mkGlobal "/proj" "/proj" in
  let world := single_file_world "/proj/config.js" (VString "cfg") in
  Async.openFiles (posix "/") global world "/proj" "config"
                  ([".json"; ".js"] ++ [".cjs"]) ""
  = Async.openFiles (posix "/") global world "/proj" "config" [".json"; ".js"] "" /\
  events (Sync.openFiles (posix "/") global world "/proj" "config"
                         ([".json"] ++ [".js"]) "")
  = [FsExists "/proj/config.json"; FsExists "/proj/config.js";
     Required "/proj/config.js"].
Proof.
  intros global world; split.
  - apply (openFiles_app (posix "/") global world "/proj" "config"
             [".json"; ".js"] [".cjs"] ""); reflexivity.
  - destruct (openFiles_app (posix "/") global world "/proj" "config"
                [".json"] [".js"] "") as [_ H].
    destruct (H eq_refl) as [_ ->]; reflexivity.
Defined.

Lemma openFiles_fallback_is_esmLoader_witness :
  let global := mkGlobal "/proj" "/proj" in
  let world := esm_file_world "/proj/config.mjs" "ERR_REQUIRE_ESM" (VString "esm") in
  value (Async.openFiles (posix "/") global world "/proj" "config"
                         [".js"; ".mjs"] "")
  = Ok (Some (async_result (posix "/") global "/proj" "config" ".mjs"
                           (VString "esm"))) /\
  value (Async.openFiles (posix "/") global (nullish_file_world "/proj/config.mjs")
                         "/proj" "config" [".js"; ".mjs"] "")
  = Throw (PropertyOfNullish "message").
Proof.
  intros global world; split.
  - apply (openFiles_fallback_is_esmLoader (posix "/") global world
             "/proj" "config" [".js"] ".mjs" [] "" (Readable "ERR_REQUIRE_ESM"));
      [repeat constructor | reflexivity | reflexivity].
  - apply (openFiles_fallback_is_esmLoader (posix "/") global
             (nullish_file_world "/proj/config.mjs")
             "/proj" "config" [".js"] ".mjs" [] "" nullish);
      [repeat constructor | reflexivity | reflexivity].
Defined.

Lemma openLocalConfigs_falls_back_after_warning_witness :
  let global := mkGlobal "/work" "/orig" in
  let world :=
    {| existsSync := fun p => String.eqb p "/work/config.js"
                              || String.eqb p "/orig/config.js";
       require := fun p => if String.eqb p "/orig/config.js"
                           then Returned (VString "orig")
                           else Thrown (Readable "bad");
       import := fun _ => Thrown (Readable "worse") |} in
  let nullish_world :=
    {| existsSync := fun p => String.eqb p "/work/config.js"
                              || String.eqb p "/orig/config.js";
       require := fun p => if String.eqb p "/orig/config.js"
                           then Returned (VString "orig")
                           else Thrown nullish;
       import := fun _ => Thrown (Readable "worse") |} in
  option_map data
    (returned
       (value (Async.openLocalConfigs (posix "/") global world "config" [".js"] "cfg")))
  = Some (VString "orig") /\
  option_map data
    (returned
       (value (Sync.openLocalConfigs (posix "/") global world "config" [".js"] "cfg")))
  = Some (VString "orig") /\
  Async.openLocalConfigs (posix "/") global nullish_world "config" [".js"] "cfg"
  = (Throw (PropertyOfNullish "message"),
     [FsExists "/work/config.js"; Required "/work/config.js";
      Imported "/work/config.js"]) /\
  Sync.openLocalConfigs (posix "/") global nullish_world "config" [".js"] "cfg"
  = (Throw (PropertyOfNullish "message"),
     [FsExists "/work/config.js"; Required "/work/config.js"]).
Proof.
  intros global world nullish_world.
  assert (Hne : "/work" <> "/orig") by discriminate.
  destruct (openLocalConfigs_falls_back_after_warning (posix "/") global world
              "config" [] ".js" [] "cfg" Hne (Forall_nil _) eq_refl)
    as (HA & HS & _ & _).
  destruct (openLocalConfigs_falls_back_after_warning (posix "/") global
              nullish_world "config" [] ".js" [] "cfg" Hne (Forall_nil _) eq_refl)
    as (_ & _ & HAn & HSn).
  split; [|split; [|split]].
  - exact (f_equal (fun m => option_map data (returned (value m)))
                   (HA "bad" "worse" eq_refl eq_refl)).
  - exact (f_equal (fun m => option_map data (returned (value m)))
                   (HS "bad" eq_refl)).
  - exact (HAn nullish (Readable "worse") (PropertyOfNullish "message")
               eq_refl eq_refl eq_refl).
  - exact (HSn (PropertyOfNullish "message") eq_refl).
Defined.

Lemma openLocalConfigs_null_iff_witness :
  let global := mkGlobal "/work" "/orig" in
  let found := single_file_world "/orig/config.js" (VString "cfg") in
  let empty := single_file_world "/elsewhere" VNull in
  (exists ext,
     In ext [".js"] /\
     ("/orig/config.js" = candidate (posix "/") "/work" "config" ext \/
      "/orig/config.js" = candidate (posix "/") "/orig" "config" ext)) /\
  value (Async.openLocalConfigs (posix "/") global empty "config" [".js"] "")
  = Ok None /\
  value (Sync.openLocalConfigs (posix "/") global empty "config" [".js"] "")
  = Ok None.
Proof.
  intros global found empty.
  destruct (openLocalConfigs_null_iff (posix "/") global found "config" [".js"] "")
    as (_ & _ & Hsome).
  destruct (openLocalConfigs_null_iff (posix "/") global empty "config" [".js"] "")
    as (HA & HS & _).
  split; [|split].
  - apply (Hsome (async_result (posix "/") global "/orig" "config" ".js"
                               (VString "cfg"))).
    left; reflexivity.
  - apply (proj2 HA); split; reflexivity.
  - apply (proj2 HS); split; reflexivity.
Defined.

Lemma walkers_end_alike_witness :
  let listing :=
    [DDenied ".cache" "EACCES";
     DDir "node_modules" [DDenied "locked" "EPERM"];
     DDir "src" [DFile "a.js"; DDir ".tmp" [DDenied "x" "EACCES"]]] in
  completion (walkDir (posix "/") "/proj" ["node_modules"] (Opened listing)) = Done /\
  completion (walkDir (posix "/") "/proj" [] (Opened listing)) <> Done.
Proof.
  intros listing.
  destruct (walkers_end_alike (posix "/") "/proj" ["node_modules"]
              (Opened listing) listing) as [_ Hskip].
  destruct (walkers_end_alike (posix "/") "/proj" []
              (Opened listing) listing) as [_ Hall].
  split.
  - apply (proj2 Hskip); reflexivity.
  - intros C; apply (proj1 Hall) in C; discriminate C.
Defined.

Lemma walk_listing_app_witness :
  walkDir (posix "/") "/proj" []
          (Opened ([DDir "a" []; DDenied "private" "EACCES"] ++ [DDir "z" []]))
  = {| yields := ["/proj/a"; "/proj/private"]; completion := Failed "EACCES" |} /\
  walkFiles (posix "/") "/proj" []
            (Opened ([DFile "a.js"] ++ [DDir "src" [DFile "b.js"]]))
  = {| yields := ["/proj/a.js"; "/proj/src/b.js"]; completion := Done |}.
Proof.
  destruct (walk_listing_app (posix "/") "/proj" []
              [DDir "a" []; DDenied "private" "EACCES"] [DDir "z" []])
    as [Hfail _].
  destruct (walk_listing_app (posix "/") "/proj" []
              [DFile "a.js"] [DDir "src" [DFile "b.js"]])
    as [_ Hdone].
  split.
  - destruct (Hfail "EACCES" eq_refl) as [-> _]; reflexivity.
  - destruct (Hdone eq_refl) as [_ ->]; reflexivity.
Defined.

Lemma walk_skipDir_as_set_witness :
  let h := Opened [DDir "a" [DDir "x" []]; DDir "b" []; DDir "c" []] in
  walkDir (posix "/") "/proj" ["a"; "b"; "a"] h
  = walkDir (posix "/") "/proj" ["b"; "a"] h /\
  walkFiles (posix "/") "/proj" ["a"; "b"; "a"] h
  = walkFiles (posix "/") "/proj" ["b"; "a"] h.
Proof.
  intros h.
  apply (walk_skipDir_as_set (posix "/") "/proj" ["a"; "b"; "a"] ["b"; "a"] h).
  intros x; simpl; tauto.
Defined.

Lemma listers_sound_complete_witness :
  let listing :=
    [DDir "src" [DFile "a.js"; DDir "lib" []]; DDir ".git" [DFile "HEAD"];
     DFile ".babelrc"] in
  In "/proj/src/lib" (array (getDirList (posix "/") "/proj" [] ["/seen"]
                                        (Opened listing))) /\
  In "/proj/.babelrc" (array (getFileList (posix "/") "/proj" [] ["/seen"]
                                          (Opened listing))).
Proof.
  intros listing.
  destruct (listers_sound_complete (posix "/") "/proj" [] ["/seen"] listing)
    as (_ & _ & HD & HF).
  split.
  - destruct (HD _ [DDir "src" [DFile "a.js"; DDir "lib" []]; DDir "lib" []]
                eq_refl) as [-> H]; [| |exact H].
    + split.
      * apply Trail_step; [left; reflexivity|].
        apply Trail_last; right; left; reflexivity.
      * repeat constructor.
    + intros _; reflexivity.
  - destruct (HF _ [DFile ".babelrc"] eq_refl) as [-> H]; [| |exact H].
    + split.
      * apply Trail_last; right; right; left; reflexivity.
      * exists [], (DFile ".babelrc").
        split; [reflexivity | split; [constructor | reflexivity]].
    + intros _; reflexivity.
Defined.

Lemma listers_settle_alike_witness :
  let good := [DDir "src" [DFile "a.js"]; DDenied ".cache" "EACCES"] in
  let bad := [DDir "src" [DFile "a.js"]; DDenied "private" "EACCES"] in
  settled (getDirList (posix "/") "/proj" [] ["/seen"] (Opened good))
  = Returned ["/seen"; "/proj/src"] /\
  settled (getFileList (posix "/") "/proj" [] [] (Opened good))
  = Returned ["/proj/src/a.js"] /\
  exists err,
    settled (getDirList (posix "/") "/proj" [] ["/seen"] (Opened bad)) = Thrown err /\
    settled (getFileList (posix "/") "/proj" [] [] (Opened bad)) = Thrown err.
Proof.
  intros good bad.
  destruct (listers_settle_alike (posix "/") "/proj" [] ["/seen"] [] good)
    as [Hgood _].
  destruct (listers_settle_alike (posix "/") "/proj" [] ["/seen"] [] bad)
    as [_ Hbad].
  destruct (Hgood eq_refl) as [Hd Hf].
  split; [exact Hd | split; [exact Hf | exact (Hbad eq_refl)]].
Defined.

Lemma probes_false_sound_witness :
  let listing := [DDir "src" [DFile "a.js"]; DDir ".git" [DFile "tsconfig.json"]] in
  map_has s_BABEL_CONFIG
    (basename (posix "/")
       (trail_path (posix "/") "/proj" [DDir "src" [DFile "a.js"]; DFile "a.js"]))
  = false /\
  completion (walkFiles (posix "/") "/proj" [] (Opened listing)) = Done.
Proof.
  intros listing.
  destruct (probes_false_sound (posix "/") "/proj" [] listing) as [HB HT].
  destruct (HB eq_refl) as [_ Hno].
  destruct (HT eq_refl) as [Hdone _].
  split; [|exact Hdone].
  apply Hno.
  - split.
    + apply Trail_step; [left; reflexivity|].
      apply Trail_last; left; reflexivity.
    + exists [DDir "src" [DFile "a.js"]], (DFile "a.js").
      split; [reflexivity | split; [|reflexivity]].
      repeat constructor.
  - intros _; reflexivity.
Defined.

Lemma probes_stop_at_match_witness :
  hasBabelConfig (posix "/") "/proj" []
    (Opened ([DDir "src" []] ++ DFile ".babelrc" :: [DDenied "private" "EACCES"]))
  = Returned true /\
  hasTscConfig (posix "/") "/proj" []
    (Opened ([DDir "src" []] ++ DFile "tsconfig.json" :: [DDenied "private" "EACCES"]))
  = Returned true.
Proof.
  split.
  - apply (probes_stop_at_match (posix "/") "/proj" [] [DDir "src" []] ".babelrc"
             [DDenied "private" "EACCES"] eq_refl); reflexivity.
  - apply (probes_stop_at_match (posix "/") "/proj" [] [DDir "src" []]
             "tsconfig.json" [DDenied "private" "EACCES"] eq_refl); reflexivity.
Defined.

Lemma classifier_exclusive_witness :
  isJS "js" = false /\ isTS "js" = false.
Proof.
  apply (classifier_exclusive "js"); reflexivity.
Defined.

(* ------------------------------------------------------------------ *)
(** ** The cosmiconfig search *)

Lemma run_bind_ok {A B} (a : A) (t : list CosmicEvent) (k : A -> Run B) :
  run_bind (Ok a, t) k = (fst (k a), t ++ snd (k a)).
Proof. reflexivity. Qed.

Lemma run_bind_throw {A B} (e : JSError) (t : list CosmicEvent) (k : A -> Run B) :
  run_bind (Throw e, t) k = (Throw e, t).
Proof. reflexivity. Qed.

Lemma get_string_object options k s :
  get options k = Ok (JString s) ->
  exists props, options = JObject props /\ lookup k props = JString s.
Proof.
  destruct options; try discriminate.
  intros [= H]; eexists; split; [reflexivity | exact H].
Qed.

Lemma set_prop_keys k v props x :
  In x (map fst props) -> In x (map fst (set_prop k v props)).
Proof.
  induction props as [|[k' v'] props IH]; [intros []|].
  simpl; destruct (String.eqb k k') eqn:E.
  - apply String.eqb_eq in E; subst k'; simpl; tauto.
  - simpl; intros [H|H]; [left; exact H | right; apply IH; exact H].
Qed.

Lemma object_assign_keys target source x :
  In x (map fst target) -> In x (map fst (object_assign target source)).
Proof.
  unfold object_assign; generalize (own_props source); intros l.
  revert target; induction l as [|[k v] l IH]; intros target H; [exact H|].
  simpl; apply IH, set_prop_keys, H.
Qed.

(** The loop only appends to the search places and only adds or overwrites
    loaders. *)
Lemma merge_cosmic_grows mergeCosmic :
  forall places loaders places' loaders',
    merge_cosmic mergeCosmic places loaders = Ok (places', loaders') ->
    (exists added, places' = places ++ added) /\
    (forall x, In x (map fst loaders) -> In x (map fst loaders')).
Proof.
  induction mergeCosmic as [|cosmic rest IH]; intros places loaders places' loaders'.
  - intros [= <- <-]; split; [exists []; symmetry; apply app_nil_r | auto].
  - simpl.
    destruct (get cosmic "searchPlaces") as [sp|e]; [|discriminate].
    destruct (get cosmic "loaders") as [lo|e]; [|discriminate].
    intros H; apply IH in H; destruct H as [(added & ->) Hkeys].
    split.
    + destruct sp; try (exists added; reflexivity).
      exists (items ++ added); symmetry; apply app_assoc.
    + intros x Hx; apply Hkeys.
      destruct (String.eqb (typeof lo) "object"); [|exact Hx].
      apply object_assign_keys, Hx.
Qed.

Section CosmicProperties.

Variable global : Global.
Variable env : Collaborators.

(** X17.  [openLocalCosmic] validates its argument before doing anything:
    a value whose [typeof] is not ["object"] and an object or array without a
    string [moduleName] are refused with the two [TypeError]s of the class,
    [null] makes the read of [moduleName] throw, and in all these cases
    nothing has been done, not even the support request.  With a string
    [moduleName] the first thing done is the support request for that
    name. *)
Theorem openLocalCosmic_validates options :
  (typeof options <> "object" ->
   openLocalCosmic global env options
   = (Throw (TypeError "'options' is not an 'object'"), [])) /\
  (options = JNull ->
   openLocalCosmic global env options
   = (Throw (PropertyOfNullish "moduleName"), [])) /\
  (typeof options = "object" -> options <> JNull ->
   (forall m, get options "moduleName" <> Ok (JString m)) ->
   openLocalCosmic global env options
   = (Throw (TypeError "'options.moduleName' is not a 'string'"), [])) /\
  (forall m,
     get options "moduleName" = Ok (JString m) ->
     exists rest,
       snd (openLocalCosmic global env options) = SupportRequested m :: rest).
Proof.
  split; [|split; [|split]].
  - intros H; unfold openLocalCosmic.
    destruct (String.eqb (typeof options) "object") eqn:E; [|reflexivity].
    apply String.eqb_eq in E; contradiction.
  - intros ->; reflexivity.
  - intros Ht Hn Hm; unfold openLocalCosmic; rewrite Ht.
    destruct options; try discriminate; try contradiction; try reflexivity.
    change (String.eqb "object" "object") with true; cbn [negb].
    unfold lift; cbn [get]; rewrite run_bind_ok.
    destruct (lookup "moduleName" props) eqn:L; try reflexivity.
    exfalso; apply (Hm s); simpl; rewrite L; reflexivity.
  - intros m H; destruct (get_string_object _ _ _ H) as (props & -> & L).
    unfold openLocalCosmic; change (typeof (JObject props)) with "object".
    change (String.eqb "object" "object") with true; cbn [negb].
    unfold lift; cbn [get]; rewrite run_bind_ok, L.
    unfold emit at 1; rewrite run_bind_ok.
    eexists; reflexivity.
Qed.

(** X18.  Search places cannot be given through [options]: when
    [options.searchPlaces] is an array the run throws a [ReferenceError] for
    the unbound identifier [searchPlaces], after the support request and the
    first write to [stderr] and before [cosmiconfig] is called. *)
Theorem openLocalCosmic_searchPlaces_option options m items remote :
  get options "moduleName" = Ok (JString m) ->
  get options "searchPlaces" = Ok (JArray items) ->
  support_get env m = Ok remote ->
  openLocalCosmic global env options
  = (Throw (ReferenceError "searchPlaces"),
     [SupportRequested m;
      StderrWrite ("!!! FileUtil - openLocalCosmic - mergeCosmic: "
                   +++ JSON_stringify env (JArray (merge_list remote)) +++ LF)]).
Proof.
  intros Hm Hs Hr; destruct (get_string_object _ _ _ Hm) as (props & -> & L).
  unfold openLocalCosmic; change (typeof (JObject props)) with "object".
  change (String.eqb "object" "object") with true; cbn [negb].
  rewrite Hs; unfold lift; cbn [get]; rewrite run_bind_ok, L.
  unfold emit; rewrite Hr, !run_bind_ok.
  reflexivity.
Qed.

(** X19.  Without support from plugins and without an array
    [options.searchPlaces], [cosmiconfig] is created for the module name with
    the original root as [stopDir], the two ESM loaders for [.js] and [.mjs]
    and the eleven default search places, the search starts at the working
    root, and the run ends as that search ends. *)
Theorem openLocalCosmic_defaults options m explorer :
  get options "moduleName" = Ok (JString m) ->
  (forall items, get options "searchPlaces" <> Ok (JArray items)) ->
  support_get env m = Ok JUndefined ->
  cosmiconfig env m
    (cosmic_options global esm_loaders
                    (map JString (s_DEFAULT_COSMIC_SEARCHPLACES m)))
  = Ok explorer ->
  openLocalCosmic global env options
  = (search explorer (bundler_baseCWD global),
     [SupportRequested m;
      StderrWrite ("!!! FileUtil - openLocalCosmic - mergeCosmic: "
                   +++ JSON_stringify env (JArray []) +++ LF);
      StderrWrite ("!!! FileUtil - openLocalCosmic - options: "
                   +++ JSON_stringify env
                         (cosmic_options global esm_loaders
                            (map JString (s_DEFAULT_COSMIC_SEARCHPLACES m)))
                   +++ LF);
      CosmiconfigCreated m
        (cosmic_options global esm_loaders
                        (map JString (s_DEFAULT_COSMIC_SEARCHPLACES m)));
      StderrWrite ("!!! FileUtil - openLocalCosmic - baseCWD: "
                   +++ bundler_baseCWD global +++ LF);
      SearchStarted (bundler_baseCWD global)]).
Proof.
  intros Hm Hs Hr Hc; destruct (get_string_object _ _ _ Hm) as (props & -> & L).
  unfold openLocalCosmic; change (typeof (JObject props)) with "object".
  change (String.eqb "object" "object") with true; cbn [negb].
  unfold lift; cbn [get] in *; rewrite run_bind_ok, L.
  unfold emit; rewrite Hr, !run_bind_ok.
  destruct (lookup "searchPlaces" props) eqn:P;
    try (exfalso; apply (Hs items); reflexivity);
    cbn [isArray merge_list defined merge_cosmic]; unfold run_ret;
    repeat (rewrite run_bind_ok; cbv beta; cbn [fst snd]);
    rewrite Hc;
    repeat (rewrite run_bind_ok; cbv beta; cbn [fst snd]);
    reflexivity.
Qed.

(** The support answer matters only through the list [mergeCosmic] built
    from it. *)
Lemma openLocalCosmic_support_ext options r1 r2 :
  merge_list r1 = merge_list r2 ->
  openLocalCosmic global (with_support env (Ok r1)) options
  = openLocalCosmic global (with_support env (Ok r2)) options.
Proof.
  intros H; unfold openLocalCosmic.
  cbn [with_support support_get JSON_stringify cosmiconfig].
  destruct (negb (String.eqb (typeof options) "object")); [reflexivity|].
  unfold lift, emit.
  destruct (get options "moduleName") as [name|e]; [|reflexivity].
  rewrite !run_bind_ok; cbv beta.
  destruct name; try reflexivity.
  repeat (rewrite run_bind_ok; cbv beta zeta; cbn [fst snd]).
  rewrite H; reflexivity.
Qed.

(** X20.  The forms of a support answer: a single value that is neither an
    array nor [undefined] is treated as the array holding it, and no answer
    ([undefined]) as the empty array. *)
Theorem openLocalCosmic_support_forms options :
  (forall v,
     isArray v = false -> defined v = true ->
     openLocalCosmic global (with_support env (Ok v)) options
     = openLocalCosmic global (with_support env (Ok (JArray [v]))) options) /\
  openLocalCosmic global (with_support env (Ok JUndefined)) options
  = openLocalCosmic global (with_support env (Ok (JArray []))) options.
Proof.
  split.
  - intros v Ha Hd; apply openLocalCosmic_support_ext.
    destruct v; try discriminate; reflexivity.
  - apply openLocalCosmic_support_ext; reflexivity.
Qed.

(** X21.  Whatever the plugins answer, the options [cosmiconfig] is created
    with keep three things fixed: [stopDir] is the original root, the search
    places begin with the eleven defaults of the module name, in order, and
    the loaders have an entry for [.js] and one for [.mjs].  The module name
    is the string [options.moduleName]. *)
Theorem openLocalCosmic_options_invariant options m opts :
  In (CosmiconfigCreated m opts) (snd (openLocalCosmic global env options)) ->
  get options "moduleName" = Ok (JString m) /\
  exists loaders added,
    opts = cosmic_options global loaders
             (map JString (s_DEFAULT_COSMIC_SEARCHPLACES m) ++ added) /\
    In ".js" (map fst loaders) /\ In ".mjs" (map fst loaders).
Proof.
  unfold openLocalCosmic.
  destruct (negb (String.eqb (typeof options) "object")); [intros []|].
  unfold lift, emit, run_ret, run_throw.
  destruct (get options "moduleName") as [name|e] eqn:G; [|intros []].
  rewrite run_bind_ok; cbv beta.
  destruct name; try solve [intros []].
  rewrite run_bind_ok; cbv beta; cbn [fst snd app].
  destruct (support_get env s) as [remote|e].
  2:{ rewrite run_bind_throw; cbn [snd]; intros [H|[]]; discriminate H. }
  rewrite run_bind_ok; cbv beta zeta; cbn [fst snd app].
  rewrite run_bind_ok; cbv beta; cbn [fst snd app].
  destruct (get options "searchPlaces") as [places|e].
  2:{ rewrite run_bind_throw; cbn [snd].
      intros [H|[H|[]]]; discriminate H. }
  rewrite run_bind_ok; cbv beta; cbn [fst snd app].
  destruct (isArray places).
  { rewrite run_bind_throw; cbn [snd].
    intros [H|[H|[]]]; discriminate H. }
  rewrite run_bind_ok; cbv beta; cbn [fst snd app].
  destruct (merge_cosmic (merge_list remote)
              (map JString (s_DEFAULT_COSMIC_SEARCHPLACES s)) esm_loaders)
    as [[places' loaders']|e] eqn:M.
  2:{ rewrite run_bind_throw; cbn [snd].
      intros [H|[H|[]]]; discriminate H. }
  rewrite run_bind_ok; cbv beta zeta; cbn [fst snd app].
  rewrite run_bind_ok; cbv beta; cbn [fst snd app].
  rewrite run_bind_ok; cbv beta; cbn [fst snd app].
  assert (Hopts : m = s /\ opts = cosmic_options global loaders' places' ->
                  Ok (JString s) = Ok (JString m) /\
                  exists loaders added,
                    opts = cosmic_options global loaders
                             (map JString (s_DEFAULT_COSMIC_SEARCHPLACES m) ++ added) /\
                    In ".js" (map fst loaders) /\ In ".mjs" (map fst loaders)).
  { intros [-> ->]; split; [reflexivity|].
    destruct (merge_cosmic_grows _ _ _ _ _ M) as [(added & ->) Hkeys].
    exists loaders', added; split; [reflexivity|].
    split; apply Hkeys; simpl; auto. }
  destruct (cosmiconfig env s (cosmic_options global loaders' places'))
    as [explorer|e].
  - rewrite run_bind_ok; cbv beta; cbn [fst snd app].
    rewrite run_bind_ok; cbv beta; cbn [fst snd app].
    rewrite run_bind_ok; cbv beta; cbn [fst snd app].
    intros [H|[H|[H|[H|[H|[H|[]]]]]]]; try discriminate H.
    injection H as <- <-; apply Hopts; split; reflexivity.
  - rewrite run_bind_throw; cbn [snd app].
    intros [H|[H|[H|[H|[]]]]]; try discriminate H.
    injection H as <- <-; apply Hopts; split; reflexivity.
Qed.

End CosmicProperties.

Lemma openLocalCosmic_validates_witness :
  let global := mkGlobal "/work" "/orig" in
  let env := quiet_collaborators JNull in
  openLocalCosmic global env (JString "foo")
  = (Throw (TypeError "'options' is not an 'object'"), []) /\
  openLocalCosmic global env JNull
  = (Throw (PropertyOfNullish "moduleName"), []) /\
  openLocalCosmic global env (JObject [("moduleName", JNumber 1)])
  = (Throw (TypeError "'options.moduleName' is not a 'string'"), []) /\
  exists rest,
    snd (openLocalCosmic global env (JObject [("moduleName", JString "foo")]))
    = SupportRequested "foo" :: rest.
Proof.
  intros global env.
  destruct (openLocalCosmic_validates global env (JString "foo")) as (H1 & _).
  destruct (openLocalCosmic_validates global env JNull) as (_ & H2 & _).
  destruct (openLocalCosmic_validates global env
              (JObject [("moduleName", JNumber 1)])) as (_ & _ & H3 & _).
  destruct (openLocalCosmic_validates global env
              (JObject [("moduleName", JString "foo")])) as (_ & _ & _ & H4).
  split; [|split; [|split]].
  - apply H1; discriminate.
  - apply H2; reflexivity.
  - apply H3; [reflexivity | discriminate | intros m; discriminate].
  - apply (H4 "foo"); reflexivity.
Defined.

Lemma openLocalCosmic_searchPlaces_option_witness :
  fst (openLocalCosmic (mkGlobal "/work" "/orig") (quiet_collaborators JNull)
         (JObject [("moduleName", JString "foo");
                   ("searchPlaces", JArray [JString "foo.json"])]))
  = Throw (ReferenceError "searchPlaces").
Proof.
  exact (f_equal fst
           (openLocalCosmic_searchPlaces_option
              (mkGlobal "/work" "/orig") (quiet_collaborators JNull)
              (JObject [("moduleName", JString "foo");
                        ("searchPlaces", JArray [JString "foo.json"])])
              "foo" [JString "foo.json"] JUndefined eq_refl eq_refl eq_refl)).
Defined.

Lemma openLocalCosmic_defaults_witness :
  fst (openLocalCosmic (mkGlobal "/work" "/orig")
         (quiet_collaborators (JString "found"))
         (JObject [("moduleName", JString "foo")]))
  = Ok (JString "found").
Proof.
  assert (H : forall items,
             get (JObject [("moduleName", JString "foo")]) "searchPlaces"
             <> Ok (JArray items)) by (intros items; discriminate).
  exact (f_equal fst
           (openLocalCosmic_defaults
              (mkGlobal "/work" "/orig") (quiet_collaborators (JString "found"))
              (JObject [("moduleName", JString "foo")]) "foo"
              (mkExplorer (fun _ => Ok (JString "found")))
              eq_refl H eq_refl eq_refl)).
Defined.

Lemma openLocalCosmic_support_forms_witness :
  let global := mkGlobal "/work" "/orig" in
  let env := quiet_collaborators JNull in
  let plugin := JObject [("searchPlaces", JArray [JString "foo.toml"])] in
  let options := JObject [("moduleName", JString "foo")] in
  openLocalCosmic global (with_support env (Ok plugin)) options
  = openLocalCosmic global (with_support env (Ok (JArray [plugin]))) options.
Proof.
  intros global env plugin options.
  apply (openLocalCosmic_support_forms global env options); reflexivity.
Defined.

Lemma openLocalCosmic_options_invariant_witness :
  let global := mkGlobal "/work" "/orig" in
  let plugin :=
    JObject [("searchPlaces", JArray [JString "foo.toml"]);
             ("loaders", JObject [(".toml", JFunction "toml")])] in
  let env := with_support (quiet_collaborators JNull) (Ok plugin) in
  let opts :=
    JObject [("stopDir", JString "/orig");
             ("loaders", JObject [(".js", JFunction "esmLoader");
                                  (".mjs", JFunction "esmLoader");
                                  (".toml", JFunction "toml")]);
             ("searchPlaces",
              JArray (map JString (s_DEFAULT_COSMIC_SEARCHPLACES "foo")
                      ++ [JString "foo.toml"]))] in
  exists loaders added,
    opts = cosmic_options global loaders
             (map JString (s_DEFAULT_COSMIC_SEARCHPLACES "foo") ++ added) /\
    In ".js" (map fst loaders) /\ In ".mjs" (map fst loaders).
Proof.
  intros global plugin env opts.
  apply (openLocalCosmic_options_invariant global env
           (JObject [("moduleName", JString "foo")]) "foo" opts).
  right; right; right; left; reflexivity.
Defined.
